(** * ChessAI-SelfLearning-Web: the engine of [backend/ai_engine.py]

    A shallow embedding of [ChessEngine] (position encoder, evaluator,
    alpha-beta search, strength-tiered move selection, training step) and of
    [SelfTrainer] (self-play game, background loop), followed by the
    properties of the design document that concern them.

    External collaborators are parameters of the development:
    - python-chess (positions, legal moves, termination, results, UCI text);
    - the network and its optimizer (forward pass, one Adam step);
    - the [random] module, as a tape of draws.

    Python objects that are mutated in place are threaded explicitly: a
    [Board] is passed to and returned from every function that pushes or pops
    moves on it, and everything owned by the engine or the process (model
    parameters, optimizer, random state, the saved model file, the record of
    observable events) lives in a [World] carried by the monad [M]. *)

From Stdlib Require Import ZArith QArith List String Bool Lia.
From stdpp Require Import base list strings gmap.
Import ListNotations.

Local Open Scope nat_scope.

(** ** Scores

    An evaluation is a Python float. The search never computes with
    evaluations, it only compares them ([>], [<], [<=], [max], [min]) with
    each other and with [float('inf')] and [-float('inf')]. A finite score is
    therefore represented by an integer that stands for its place in the
    order of the floats (NaN is not a value of [tanh] on finite input and has
    no representative; the two zeros share one). *)

Inductive score : Type :=
| NegInf
| Fin (x : Z)
| PosInf.

(** [a < b] on floats. *)
Definition slt (a b : score) : bool :=
  match a, b with
  | NegInf, NegInf => false
  | NegInf, _ => true
  | Fin _, NegInf => false
  | Fin x, Fin y => (x <? y)%Z
  | Fin _, PosInf => true
  | PosInf, _ => false
  end.

(** [a <= b] on floats. *)
Definition sle (a b : score) : bool :=
  match a, b with
  | NegInf, _ => true
  | Fin _, NegInf => false
  | Fin x, Fin y => (x <=? y)%Z
  | Fin _, PosInf => true
  | PosInf, PosInf => true
  | PosInf, _ => false
  end.

(** Python's [max(a, b)]: the first argument unless the second is greater. *)
Definition smax (a b : score) : score := if slt a b then b else a.

(** Python's [min(a, b)]: the first argument unless the second is smaller. *)
Definition smin (a b : score) : score := if slt b a then b else a.

(** ** Exceptions and outcomes *)

Inductive exn : Type :=
| IndexError
| ValueError
| TypeError
| OSError
| AttributeError.

(** What running a piece of code yields: a value, a raised exception, or
    nothing within the number of loop iterations granted to it. *)
Inductive outcome (A : Type) : Type :=
| Return (a : A)
| Raise (e : exn)
| OutOfFuel.

Arguments Return {A} a.
Arguments Raise {A} e.
Arguments OutOfFuel {A}.

(** ** Pieces and the encoded position *)

Inductive PieceType : Type := PAWN | KNIGHT | BISHOP | ROOK | QUEEN | KING.

#[global] Instance PieceType_eq_dec : EqDecision PieceType.
Proof. solve_decision. Defined.

(** [chess.Piece]: [color] is [true] for [chess.WHITE]. *)
Record Piece : Type := { piece_type : PieceType; color : bool }.

(** A numpy vector of float32 entries. *)
Abbreviation vector := (list Q) (only parsing).

(** A tensor with a leading batch dimension. *)
Abbreviation tensor := (list (list Q)) (only parsing).

(** [chess.SQUARES] is [range(64)]. *)
Definition SQUARES : list nat := seq 0 64.

(** [list.index(x)]: the first position holding [x], [ValueError] if none. *)
Fixpoint list_index {A} `{EqDecision A} (x : A) (l : list A) : outcome nat :=
  match l with
  | [] => Raise ValueError
  | y :: l' =>
      if decide (y = x) then Return 0
      else match list_index x l' with
           | Return i => Return (S i)
           | Raise e => Raise e
           | OutOfFuel => OutOfFuel
           end
  end.

(** [x[idx] = v] on a numpy array: [IndexError] out of range. *)
Definition setitem (x : vector) (idx : nat) (v : Q) : outcome vector :=
  if idx <? length x then Return (<[idx := v]> x) else Raise IndexError.

(** The number of entries of a vector that are set to [1.0]. *)
Definition set_entries (x : vector) : nat :=
  length (List.filter (fun v => Qeq_bool v 1) x).

(** ** The rules engine (python-chess)

    [Position] is what a FEN string denotes. A [chess.Board] object also
    keeps the positions it went through, which [pop] restores and which the
    termination test consults (repetition), so termination and result are
    functions of both. *)

Class RulesEngine : Type := {
  Position : Type;
  Move : Type;
  (** [list(board.legal_moves)], in generation order *)
  legal_moves : Position -> list Move;
  (** the position reached by [board.push(move)] *)
  make_move : Position -> Move -> Position;
  (** [board.turn]; [true] is [chess.WHITE] *)
  turn : Position -> bool;
  (** [board.piece_at(square)] *)
  piece_at : Position -> nat -> option Piece;
  (** [board.is_game_over()], from the current position and the earlier ones *)
  game_over : Position -> list Position -> bool;
  (** [board.result()] *)
  game_result : Position -> list Position -> string;
  (** [str(move)] *)
  uci : Move -> string;
  (** [chess.Move.from_uci(text)]; [None] stands for its [ValueError] *)
  from_uci : string -> option Move;
  (** [bool(move)]: false for the null move only *)
  move_bool : Move -> bool;
  (** [chess.Board()] *)
  starting_position : Position;
}.

(** ** The network and its optimizer (torch) *)

Class Network : Type := {
  Params : Type;
  OptState : Type;
  (** [self.model(tensor).item()], as a finite score; a network that
      answers NaN (its parameters having become NaN) is not modelled *)
  forward : Params -> tensor -> Z;
  (** [criterion(output, target)] for the current parameters *)
  mse_loss : Params -> tensor -> Q -> Q;
  (** [zero_grad(); loss.backward(); optimizer.step()] *)
  optimizer_step : Params -> OptState -> tensor -> Q -> Params * OptState;
}.

Section Engine.

Context `{RulesEngine} `{Network}.

(** *** The board object *)

Record Board : Type := {
  current : Position;
  stack : list Position;
}.

(** [chess.Board(fen)] *)
Definition new_board (fen : Position) : Board :=
  {| current := fen; stack := [] |}.

(** [board.push(move)] *)
Definition push (board : Board) (move : Move) : Board :=
  {| current := make_move (current board) move;
     stack := current board :: stack board |}.

(** [board.pop()]: [IndexError] when no move was pushed. *)
Definition pop (board : Board) : outcome Board :=
  match stack board with
  | [] => Raise IndexError
  | p :: s => Return {| current := p; stack := s |}
  end.

Definition is_game_over (board : Board) : bool :=
  game_over (current board) (stack board).

Definition result (board : Board) : string :=
  game_result (current board) (stack board).

(** *** The position encoder *)

Definition pieces : list PieceType := [PAWN; KNIGHT; BISHOP; ROOK; QUEEN; KING].

(** The body of the loop over squares in [board_to_tensor]. *)
Definition encode_square (board : Board) (x : vector) (square : nat)
  : outcome vector :=
  match piece_at (current board) square with
  | None => Return x
  | Some piece =>
      let offset := if color piece then 0 else 6 in
      match list_index (piece_type piece) pieces with
      | Return piece_idx =>
          let idx := (square * 12) + (piece_idx + offset) in
          setitem x idx 1%Q
      | Raise e => Raise e
      | OutOfFuel => OutOfFuel
      end
  end.

Fixpoint encode_squares (board : Board) (x : vector) (squares : list nat)
  : outcome vector :=
  match squares with
  | [] => Return x
  | square :: rest =>
      match encode_square board x square with
      | Return x' => encode_squares board x' rest
      | Raise e => Raise e
      | OutOfFuel => OutOfFuel
      end
  end.

(** [ChessEngine.board_to_tensor]: [np.zeros(768)], the loop over the
    squares, then [unsqueeze(0)]. *)
Definition board_to_tensor (board : Board) : outcome tensor :=
  match encode_squares board (replicate 768 0%Q) SQUARES with
  | Return x => Return [x]
  | Raise e => Raise e
  | OutOfFuel => OutOfFuel
  end.

(** *** The world and the monad *)

(** The [random] module: a tape of draws and a cursor on it. *)
Record Rng : Type := {
  floats : nat -> Q;
  indexes : nat -> nat;
  cursor : nat;
}.

Definition advance (g : Rng) : Rng :=
  {| floats := floats g; indexes := indexes g; cursor := S (cursor g) |}.

(** Lines written by [print]. *)
Inductive message : Type :=
| SelfTrainingStarted
| ModelSaved
| ErrorInSelfTraining (e : exn)
| GameFinished (result : string).

(** What the engine does that can be observed from outside a call. *)
Inductive event : Type :=
| Evaluated (board : Board)
| Trained (x : tensor) (target : Q)
| Saved (parameters : Params)
| Printed (line : message)
| Slept (seconds : nat).

(** [events] holds the most recent event first. [writable] tells whether the
    model file can be written (the outcome of [torch.save] is decided by the
    environment). *)
Record World : Type := {
  model : Params;
  optimizer : OptState;
  rng : Rng;
  disk : option Params;
  writable : bool;
  events : list event;
}.

Definition M (A : Type) : Type := World -> outcome A * World.

Definition ret {A} (a : A) : M A := fun w => (Return a, w).

Definition raise {A} (e : exn) : M A := fun w => (Raise e, w).

Definition bind {A B} (c : M A) (k : A -> M B) : M B :=
  fun w =>
    match c w with
    | (Return a, w') => k a w'
    | (Raise e, w') => (Raise e, w')
    | (OutOfFuel, w') => (OutOfFuel, w')
    end.

(** A computation that does not touch the world. *)
Definition lift {A} (o : outcome A) : M A := fun w => (o, w).

(** [try: body except Exception as e: handler(e)] *)
Definition try_except {A} (body : M A) (handler : exn -> M A) : M A :=
  fun w =>
    match body w with
    | (Raise e, w') => handler e w'
    | r => r
    end.

Definition emit (e : event) : M unit :=
  fun w =>
    (Return tt,
     {| model := model w; optimizer := optimizer w; rng := rng w;
        disk := disk w; writable := writable w; events := e :: events w |}).

Definition print (line : message) : M unit := emit (Printed line).

(** [time.sleep(seconds)] *)
Definition sleep (seconds : nat) : M unit := emit (Slept seconds).

Definition with_rng (g : Rng) (w : World) : World :=
  {| model := model w; optimizer := optimizer w; rng := g;
     disk := disk w; writable := writable w; events := events w |}.

(** [random.random()] *)
Definition random_random : M Q :=
  fun w => (Return (floats (rng w) (cursor (rng w))), with_rng (advance (rng w)) w).

(** [random.choice(seq)]: [seq[randbelow(len(seq))]], [IndexError] on an
    empty sequence. *)
Definition random_choice {A} (seq : list A) : M A :=
  fun w =>
    match seq with
    | [] => (Raise IndexError, w)
    | _ :: _ =>
        match seq !! (indexes (rng w) (cursor (rng w)) mod length seq) with
        | Some a => (Return a, with_rng (advance (rng w)) w)
        | None => (Raise IndexError, w)
        end
    end.

End Engine.

Notation "x <- c ;; k" := (bind c (fun x => k))
  (at level 20, c at level 99, k at level 200, only parsing).
Notation "' p <- c ;; k" := (bind c (fun x => let 'p := x in k))
  (at level 20, p pattern, c at level 99, k at level 200, only parsing).
Notation "'run' c ;; k" := (bind c (fun _ => k))
  (at level 20, c at level 99, k at level 200, only parsing).

Section ChessEngine.

Context `{RulesEngine} `{Network}.

(** [ChessEngine.evaluate]: a forward pass under [torch.no_grad()]. *)
Definition evaluate (board : Board) : M score :=
  tensor <- lift (board_to_tensor board) ;;
  parameters <- (fun w => (Return (model w), w)) ;;
  run emit (Evaluated board) ;;
  ret (Fin (forward parameters tensor)).

(** The loop of the maximizing branch of [minimax]; [rec] is the recursive
    call at [depth - 1]. The moves are those generated from the board as it
    is when the loop starts. *)
Fixpoint max_loop (rec : Board -> score -> score -> bool -> M (score * Board))
  (moves : list Move) (board : Board) (alpha beta max_eval : score)
  : M (score * Board) :=
  match moves with
  | [] => ret (max_eval, board)
  | move :: rest =>
      let board := push board move in
      '(eval, board) <- rec board alpha beta false ;;
      board <- lift (pop board) ;;
      let max_eval := smax max_eval eval in
      let alpha := smax alpha eval in
      if sle beta alpha then ret (max_eval, board)
      else max_loop rec rest board alpha beta max_eval
  end.

(** The loop of the minimizing branch of [minimax]. *)
Fixpoint min_loop (rec : Board -> score -> score -> bool -> M (score * Board))
  (moves : list Move) (board : Board) (alpha beta min_eval : score)
  : M (score * Board) :=
  match moves with
  | [] => ret (min_eval, board)
  | move :: rest =>
      let board := push board move in
      '(eval, board) <- rec board alpha beta true ;;
      board <- lift (pop board) ;;
      let min_eval := smin min_eval eval in
      let beta := smin beta eval in
      if sle beta alpha then ret (min_eval, board)
      else min_loop rec rest board alpha beta min_eval
  end.

(** [ChessEngine.minimax]. The board is the caller's object: it is returned
    along with the value, in the state the call leaves it. *)
Fixpoint minimax (depth : nat) (board : Board) (alpha beta : score)
  (maximizing_player : bool) : M (score * Board) :=
  match depth with
  | 0 => v <- evaluate board ;; ret (v, board)
  | S depth' =>
      if is_game_over board then v <- evaluate board ;; ret (v, board)
      else if maximizing_player then
        max_loop (minimax depth') (legal_moves (current board))
          board alpha beta NegInf
      else
        min_loop (minimax depth') (legal_moves (current board))
          board alpha beta PosInf
  end.

(** The loop over the root moves in [get_move]. *)
Fixpoint root_loop (depth : nat) (moves : list Move) (board : Board)
  (best_move : option Move) (best_val : score)
  : M (option Move * Board) :=
  match moves with
  | [] => ret (best_move, board)
  | move :: rest =>
      let board := push board move in
      '(val, board) <-
        minimax (depth - 1) board NegInf PosInf (negb (turn (current board))) ;;
      board <- lift (pop board) ;;
      if turn (current board) then
        if slt best_val val then root_loop depth rest board (Some move) val
        else root_loop depth rest board best_move best_val
      else
        if slt val best_val then root_loop depth rest board (Some move) val
        else root_loop depth rest board best_move best_val
  end.

(** [get_move] from the initialisation of [best_move] to its last line. In
    [str(best_move) if best_move else ...] the test is false for [None] and
    for a move whose truth value is false. *)
Definition search_root (board : Board) (legal : list Move) (depth : nat)
  : M (option string) :=
  let best_val := if turn (current board) then NegInf else PosInf in
  '(best_move, board) <- root_loop depth legal board None best_val ;;
  match best_move with
  | Some move =>
      if move_bool move then ret (Some (uci move))
      else move <- random_choice legal ;; ret (Some (uci move))
  | None => move <- random_choice legal ;; ret (Some (uci move))
  end.

(** [ChessEngine.get_move]; [None] is Python's [None]. *)
Definition get_move (fen : Position) (target_elo : Z) : M (option string) :=
  let board := new_board fen in
  let legal := legal_moves (current board) in
  match legal with
  | [] => ret None
  | _ :: _ =>
      if (target_elo <? 1000)%Z then
        u <- random_random ;;
        if negb (Qle_bool (1 # 2) u) then
          move <- random_choice legal ;; ret (Some (uci move))
        else search_root board legal 1
      else if (target_elo <? 1800)%Z then
        u <- random_random ;;
        if negb (Qle_bool (1 # 5) u) then
          move <- random_choice legal ;; ret (Some (uci move))
        else search_root board legal 2
      else search_root board legal 3
  end.

(** [ChessEngine.train_step] *)
Definition train_step (board_tensor : tensor) (target_val : Q) : M Q :=
  fun w =>
    let loss := mse_loss (model w) board_tensor target_val in
    let '(parameters, state) :=
      optimizer_step (model w) (optimizer w) board_tensor target_val in
    (Return loss,
     {| model := parameters; optimizer := state; rng := rng w;
        disk := disk w; writable := writable w;
        events := Trained board_tensor target_val :: events w |}).

(** [ChessEngine.save_model]: [torch.save] raises when the file cannot be
    written. [writable w = false] stands for a file that cannot be opened
    for writing, so that nothing is written, and [OSError] for the exception
    raised then, whose Python class depends on the version of torch. A save
    that fails after it has begun to write is not modelled. *)
Definition save_model : M unit :=
  fun w =>
    if writable w then
      print ModelSaved
        {| model := model w; optimizer := optimizer w; rng := rng w;
           disk := Some (model w); writable := writable w;
           events := Saved (model w) :: events w |}
    else (Raise OSError, w).

End ChessEngine.

Section SelfTrainer.

Context `{RulesEngine} `{Network}.

(** [chess.Move.from_uci(move_str)] on what [get_move] returned. *)
Definition move_from_uci (move_str : option string) : outcome Move :=
  match move_str with
  | None => Raise TypeError
  | Some text =>
      match from_uci text with
      | Some move => Return move
      | None => Raise ValueError
      end
  end.

(** The [while not board.is_game_over()] loop of [play_game], for at most
    [fuel] moves. [get_move] receives [board.fen()], which carries the
    current position and none of the earlier ones. *)
Fixpoint self_play (fuel : nat) (board : Board)
  (game_history : list (tensor * bool)) : M (Board * list (tensor * bool)) :=
  if is_game_over board then ret (board, game_history)
  else
    match fuel with
    | 0 => lift OutOfFuel
    | S fuel' =>
        u <- random_random ;;
        move <-
          (if negb (Qle_bool (1 # 10) u) then
             random_choice (legal_moves (current board))
           else
             move_str <- get_move (current board) 2000 ;;
             lift (move_from_uci move_str)) ;;
        tensor <- lift (board_to_tensor board) ;;
        let game_history := game_history ++ [(tensor, turn (current board))] in
        self_play fuel' (push board move) game_history
    end.

(** The reward chosen from [board.result()]. *)
Definition reward_for (result : string) : Q :=
  if String.eqb result "1-0" then 1
  else if String.eqb result "0-1" then -1
  else 0.

(** The [for tensor, turn in game_history] loop of [play_game]. *)
Fixpoint train_on (game_history : list (tensor * bool)) (reward : Q) : M unit :=
  match game_history with
  | [] => ret tt
  | (tensor, turn) :: rest =>
      let target := reward in
      _ <- train_step tensor target ;;
      train_on rest reward
  end.

(** [SelfTrainer.play_game] *)
Definition play_game (fuel : nat) : M unit :=
  '(board, game_history) <- self_play fuel (new_board starting_position) [] ;;
  let result := result board in
  let reward := reward_for result in
  run train_on game_history reward ;;
  run save_model ;;
  print (GameFinished result).

(** One pass through the body of [while self.running] in [loop];
    [self.running] is set once, to [True]. *)
Definition loop_body (fuel : nat) : M unit :=
  try_except
    (run play_game fuel ;; sleep 1)
    (fun e => print (ErrorInSelfTraining e)).

Fixpoint loop_iterations (iterations fuel : nat) : M unit :=
  match iterations with
  | 0 => ret tt
  | S n => run loop_body fuel ;; loop_iterations n fuel
  end.

(** [SelfTrainer.loop], observed for its first [iterations] iterations. *)
Definition loop (iterations fuel : nat) : M unit :=
  run print SelfTrainingStarted ;;
  loop_iterations iterations fuel.

End SelfTrainer.

(** ** The design document's own formulations

    The definitions of this section follow the wording of the design
    document, not the code; the properties below compare the two. *)

Section Design.

Context `{RulesEngine} `{Network}.

(** The fixed enumeration of piece types. *)
Definition piece_type_rank (t : PieceType) : nat :=
  match t with
  | PAWN => 0 | KNIGHT => 1 | BISHOP => 2 | ROOK => 3 | QUEEN => 4 | KING => 5
  end.

(** The slot of a piece standing on a square. *)
Definition slot (square_index : nat) (piece : Piece) : nat :=
  square_index * 12 + piece_type_rank (piece_type piece)
  + (if color piece then 0 else 6).

Definition occupied (board : Board) (square : nat) : bool :=
  match piece_at (current board) square with
  | Some _ => true
  | None => false
  end.

Definition occupied_squares (board : Board) : nat :=
  length (List.filter (occupied board) SQUARES).

(** Entry [i] of the encoded position: set exactly when the square [i / 12]
    holds the piece whose slot is [i]. *)
Definition encoded_entry (board : Board) (i : nat) : Q :=
  match piece_at (current board) (i / 12) with
  | Some piece => if slot (i / 12) piece =? i then 1%Q else 0%Q
  | None => 0%Q
  end.

Definition encoding (board : Board) : vector :=
  encoded_entry board <$> seq 0 768.

(** The encoded position once the squares below [k] have been visited. *)
Definition encoded_prefix (board : Board) (k : nat) : vector :=
  (fun i => if i / 12 <? k then encoded_entry board i else 0%Q) <$> seq 0 768.

(** Evaluator(Encoder(Position)) *)
Definition leaf_value (parameters : Params) (board : Board) : score :=
  Fin (forward parameters [encoding board]).

(** Full minimax without pruning: the running maximum (minimum) over all the
    legal moves, the evaluator at depth 0 and at terminal positions. *)
Fixpoint full_minimax (parameters : Params) (depth : nat) (board : Board)
  (maximizing : bool) : score :=
  match depth with
  | 0 => leaf_value parameters board
  | S depth' =>
      if is_game_over board then leaf_value parameters board
      else if maximizing then
        fold_left
          (fun best move =>
             smax best (full_minimax parameters depth' (push board move) false))
          (legal_moves (current board)) NegInf
      else
        fold_left
          (fun best move =>
             smin best (full_minimax parameters depth' (push board move) true))
          (legal_moves (current board)) PosInf
  end.

(** The score of a root candidate under optimal adversarial play: once the
    move is applied the other side is the mover, and it maximizes exactly
    when it is White. *)
Definition adversarial_value (parameters : Params) (depth : nat)
  (board : Board) (move : Move) : score :=
  let after := push board move in
  full_minimax parameters (depth - 1) after (turn (current after)).

(** A move is best for the side to move when no legal move scores better
    for that side. *)
Definition best_for_mover (parameters : Params) (depth : nat)
  (board : Board) (move : Move) : Prop :=
  forall other, In other (legal_moves (current board)) ->
    if turn (current board) then
      sle (adversarial_value parameters depth board other)
          (adversarial_value parameters depth board move) = true
    else
      sle (adversarial_value parameters depth board move)
          (adversarial_value parameters depth board other) = true.

(** Root-level selection: for White the first move whose value is strictly
    greater than the best so far, for Black strictly lesser. *)
Fixpoint root_pick (value_of : Move -> score) (white : bool)
  (moves : list Move) (best_move : option Move) (best_val : score)
  : option Move :=
  match moves with
  | [] => best_move
  | move :: rest =>
      if white then
        if slt best_val (value_of move)
        then root_pick value_of white rest (Some move) (value_of move)
        else root_pick value_of white rest best_move best_val
      else
        if slt (value_of move) best_val
        then root_pick value_of white rest (Some move) (value_of move)
        else root_pick value_of white rest best_move best_val
  end.

(** The strength tiers and their policy table. *)
Inductive StrengthTier : Type := Low | Mid | High.

Definition tier_of (rating : Z) : StrengthTier :=
  if (rating <? 1000)%Z then Low
  else if (rating <? 1800)%Z then Mid
  else High.

Definition random_probability (t : StrengthTier) : Q :=
  match t with
  | Low => 1 # 2
  | Mid => 1 # 5
  | High => 0
  end.

Definition search_depth (t : StrengthTier) : nat :=
  match t with
  | Low => 1
  | Mid => 2
  | High => 3
  end.

(** A score brought into the window from [alpha] to [beta]. *)
Definition clamp (alpha beta v : score) : score := smax alpha (smin beta v).

(** An evaluator call made during a search of [depth] plies from a board
    whose stack holds [base] positions is a leaf call when its board is
    terminal or lies [depth] plies below the root of the search. *)
Definition leaf_event (base depth : nat) (e : event) : Prop :=
  match e with
  | Evaluated b => is_game_over b = true \/ length (stack b) = base + depth
  | _ => False
  end.

Definition is_evaluation (e : event) : Prop :=
  match e with
  | Evaluated _ => True
  | _ => False
  end.

(** What serving a request may do to the world: add evaluations to the
    record of events and consume random draws, nothing else. *)
Definition serves (w w' : World) : Prop :=
  model w' = model w
  /\ optimizer w' = optimizer w
  /\ disk w' = disk w
  /\ writable w' = writable w
  /\ exists evs, events w' = evs ++ events w /\ Forall is_evaluation evs.

(** The lines printed and the pauses taken, among the events. *)
Definition is_housekeeping (e : event) : bool :=
  match e with
  | Printed _ | Slept _ => true
  | _ => false
  end.

(** The world after some more events, the most recent first. *)
Definition add_events (evs : list event) (w : World) : World :=
  {| model := model w; optimizer := optimizer w; rng := rng w;
     disk := disk w; writable := writable w; events := evs ++ events w |}.

(** What is established of a search procedure [rec] for [depth] plies, with
    [G] the value that full minimax gives: it returns, hands the board back
    as it received it, adds leaf evaluations only to the world, and inside
    an open window agrees with [G]. *)
Definition search_ok (depth : nat) (G : Params -> Board -> bool -> score)
  (rec : Board -> score -> score -> bool -> M (score * Board)) : Prop :=
  forall board alpha beta mx w,
  exists v evs,
    rec board alpha beta mx w = (Return (v, board), add_events evs w)
    /\ Forall (leaf_event (length (stack board)) depth) evs
    /\ (slt alpha beta = true ->
        clamp alpha beta v = clamp alpha beta (G (model w) board mx)).

End Design.

(** ** A small instance

    A rules engine given by an explicit game tree and a network that counts
    material, to run the definitions on. *)

Module Example.

(** A position: the side to move, whether the game is over and with which
    result, the pieces on their squares, and the positions that the legal
    moves lead to. A move is the index of its reply. *)
#[local] Unset Elimination Schemes.
Inductive tree : Type :=
| Node (white_to_move : bool) (over : bool) (outcome_text : string)
    (placement : list (nat * Piece)) (replies : list tree).

#[local] Set Elimination Schemes.

Definition replies_of (p : tree) : list tree :=
  match p with Node _ _ _ _ replies => replies end.

Definition white_to_move_of (p : tree) : bool :=
  match p with Node white _ _ _ _ => white end.

Definition over_of (p : tree) : bool :=
  match p with Node _ over _ _ _ => over end.

Definition outcome_text_of (p : tree) : string :=
  match p with Node _ _ text _ _ => text end.

Fixpoint find_piece (placement : list (nat * Piece)) (square : nat)
  : option Piece :=
  match placement with
  | [] => None
  | (s, piece) :: rest => if s =? square then Some piece else find_piece rest square
  end.

Definition piece_on (p : tree) (square : nat) : option Piece :=
  match p with Node _ _ _ placement _ => find_piece placement square end.

(** Moves are written [a], [b], [c], ... *)
Definition move_text (move : nat) : string :=
  String (Ascii.ascii_of_nat (97 + move)) EmptyString.

Definition move_of_text (text : string) : option nat :=
  match text with
  | String c EmptyString =>
      if 97 <=? Ascii.nat_of_ascii c then Some (Ascii.nat_of_ascii c - 97)
      else None
  | _ => None
  end.

(** The value of the piece in each of the twelve slots of a square. *)
Definition slot_value (k : nat) : Z :=
  nth k [1; 3; 3; 5; 9; 0; -1; -3; -3; -5; -9; 0]%Z 0%Z.

Fixpoint material (i : nat) (x : vector) : Z :=
  match x with
  | [] => 0
  | v :: rest =>
      ((if Qeq_bool v 1 then slot_value (i mod 12) else 0) + material (S i) rest)%Z
  end.

(** A network with one parameter, a bias added to the material balance; a
    training step moves the bias one unit towards the target. *)
#[export] Instance material_network : Network := {|
  Params := Z;
  OptState := nat;
  forward bias t := (bias + material 0 (concat t))%Z;
  mse_loss bias t target :=
    Qpower (target - inject_Z (bias + material 0 (concat t))) 2;
  optimizer_step bias steps t target :=
    ((if Qle_bool target (inject_Z (bias + material 0 (concat t)))
      then if Qle_bool (inject_Z (bias + material 0 (concat t))) target
           then bias else bias - 1
      else bias + 1)%Z,
     S steps);
|}.

Definition white (t : PieceType) : Piece := {| piece_type := t; color := true |}.
Definition black (t : PieceType) : Piece := {| piece_type := t; color := false |}.

(** Kings on e1 and e8, and the rook that is left. *)
Definition rook_up : tree :=
  Node true true "1-0" [(4, white KING); (60, black KING); (0, white ROOK)] [].

Definition rook_down : tree :=
  Node true true "0-1" [(4, white KING); (60, black KING); (56, black ROOK)] [].

Definition bare_kings : tree :=
  Node true true "1/2-1/2" [(4, white KING); (60, black KING)] [].

(** After White's move [a] Black chooses between losing and winning a rook;
    after White's move [b] the rooks come off. *)
Definition after_a : tree :=
  Node false false "*"
    [(4, white KING); (60, black KING); (0, white ROOK); (56, black ROOK)]
    [rook_up; rook_down].

Definition after_b : tree :=
  Node false false "*"
    [(4, white KING); (60, black KING); (0, white ROOK); (56, black ROOK)]
    [bare_kings].

Definition root : tree :=
  Node true false "*"
    [(4, white KING); (60, black KING); (0, white ROOK); (56, black ROOK)]
    [after_a; after_b].

(** A position that is not over although its only reply has no move. *)
Definition stuck : tree :=
  Node false false "*" [(4, white KING); (60, black KING)] [].

Definition before_stuck : tree :=
  Node true false "*" [(4, white KING); (60, black KING)] [stuck].

(** Self-play starts from [root]. *)
#[export] Instance tree_engine : RulesEngine := {|
  Position := tree;
  Move := nat;
  legal_moves p := seq 0 (length (replies_of p));
  make_move p move := nth move (replies_of p) p;
  turn := white_to_move_of;
  piece_at := piece_on;
  game_over p _ := over_of p;
  game_result p _ := outcome_text_of p;
  uci := move_text;
  from_uci := move_of_text;
  move_bool _ := true;
  starting_position := root;
|}.

(** A tape on which [random()] is always [u] and [randbelow] always [k]. *)
Definition constant_tape (u : Q) (k : nat) : Rng :=
  {| floats := fun _ => u; indexes := fun _ => k; cursor := 0 |}.

Definition initial_world (tape : Rng) (can_write : bool) : World :=
  {| model := 0%Z; optimizer := 0; rng := tape; disk := None;
     writable := can_write; events := [] |}.

(** A world in which [random()] is always 0.5 and the file can be written. *)
Definition quiet_world : World := initial_world (constant_tape (1 # 2) 0) true.

(** The same with a model file that cannot be written. *)
Definition read_only_world : World :=
  initial_world (constant_tape (1 # 2) 0) false.

(** A world in which [random()] is always 0.25. *)
Definition lucky_world : World := initial_world (constant_tape (1 # 4) 0) true.

End Example.

(** ** Start-up and persistence *)

(** The line that [load_model] prints. The record of events has no place for
    it, so [load_model] returns it. *)
Inductive startup_line : Type :=
| ModelLoaded
| ErrorLoadingModel
| NoExistingModel.

Section Startup.

Context `{RulesEngine} `{Network}.

Definition with_model (parameters : Params) (w : World) : World :=
  {| model := parameters; optimizer := optimizer w; rng := rng w;
     disk := disk w; writable := writable w; events := events w |}.

Definition with_optimizer (state : OptState) (w : World) : World :=
  {| model := model w; optimizer := state; rng := rng w;
     disk := disk w; writable := writable w; events := events w |}.

(** [ChessEngine.load_model]. A file recorded in [disk] holds parameters of
    this network, which [load_state_dict] accepts. [readable] tells whether
    [torch.load] can read the file; when it raises, the exception is caught
    before [load_state_dict] is reached and the parameters stay as they are.
    A file written for another network, of which [load_state_dict] copies
    the tensors that fit before it raises, is not modelled. *)
Definition load_model (readable : bool) : M startup_line :=
  fun w =>
    match disk w with
    | Some saved =>
        if readable then (Return ModelLoaded, with_model saved w)
        else (Return ErrorLoadingModel, w)
    | None => (Return NoExistingModel, w)
    end.

(** [ChessEngine.__init__]: a freshly initialised network, [load_model],
    then a new optimizer. *)
Definition engine_init (fresh : Params) (adam : OptState) (readable : bool)
  : M startup_line :=
  fun w =>
    match load_model readable (with_model fresh w) with
    | (line, w') => (line, with_optimizer adam w')
    end.

(** The parameters and the optimizer state after the training steps of a
    game trace, all towards [reward]. *)
Definition after_training (reward : Q) (game_history : list (tensor * bool))
  (state : Params * OptState) : Params * OptState :=
  fold_left
    (fun s pair => optimizer_step (fst s) (snd s) (fst pair) reward)
    game_history state.

(** The number of leaves of the game tree that full minimax visits. *)
Fixpoint leaf_count (depth : nat) (board : Board) : nat :=
  match depth with
  | 0 => 1
  | S depth' =>
      if is_game_over board then 1
      else
        list_sum
          (List.map (fun move => leaf_count depth' (push board move))
             (legal_moves (current board)))
  end.

(** What is established of the cost of a search procedure [rec]: it
    returns, hands the board back and makes at most [cost board] evaluator
    calls. *)
Definition search_cost (cost : Board -> nat)
  (rec : Board -> score -> score -> bool -> M (score * Board)) : Prop :=
  forall board alpha beta mx w,
  exists v evs,
    rec board alpha beta mx w = (Return (v, board), add_events evs w)
    /\ length evs <= cost board.

(** The value that [get_move] gives a root candidate: full minimax below the
    move, in the role computed from the board after the move. *)
Definition root_value (parameters : Params) (depth : nat) (board : Board)
  (move : Move) : score :=
  full_minimax parameters (depth - 1) (push board move)
    (negb (turn (current (push board move)))).

(** [prefers white a b]: the side ([white] or not) likes [b] strictly better
    than [a]. *)
Definition prefers (white : bool) (a b : score) : bool :=
  if white then slt a b else slt b a.

(** The rules engine's contract on termination: a board that is not over
    has a legal move (no move means checkmate or stalemate). *)
Definition no_dead_end : Prop :=
  forall board : Board,
    is_game_over board = false -> legal_moves (current board) <> [].

(** Legal moves are true values and survive the round trip through their
    text form. *)
Definition moves_round_trip : Prop :=
  forall (position : Position) (move : Move),
    In move (legal_moves position) ->
    move_bool move = true /\ from_uci (uci move) = Some move.

(** What the game trace records of a position. *)
Definition trace_entry (position : Position) : list (list Q) * bool :=
  ([encoding (new_board position)], turn position).

(** A position and the ones before it, most recent first, form a line of
    play when each was reached from the one before by a legal move. *)
Fixpoint legal_line (position : Position) (earlier : list Position) : Prop :=
  match earlier with
  | [] => True
  | previous :: rest =>
      (exists move,
         In move (legal_moves previous)
         /\ position = make_move previous move)
      /\ legal_line previous rest
  end.

Definition is_pause (e : event) : bool :=
  match e with Slept _ => true | _ => false end.

Definition is_finished_line (e : event) : bool :=
  match e with Printed (GameFinished _) => true | _ => false end.

Definition is_error_line (e : event) : bool :=
  match e with Printed (ErrorInSelfTraining _) => true | _ => false end.

Definition count (p : event -> bool) (evs : list event) : nat :=
  length (List.filter p evs).

End Startup.

(** ** The request handler of [app.py] *)

(** What the handler does with the values of the request body: their truth
    value, [chess.Board(value)] and [int(value)], the latter two [None] when
    they raise. *)
Class RequestValues `{RulesEngine} : Type := {
  Json : Type;
  json_truth : Json -> bool;
  json_board : Json -> option Position;
  json_int : Json -> option Z;
}.

Section Requests.

Context `{RulesEngine} `{Network} `{!RequestValues}.

(** Why a request failed inside the guarded block. *)
Inductive failure : Type :=
| BadRating
| BadPosition
| EngineRaised (e : exn).

(** The answers of the [/move] route. *)
Inductive response : Type :=
| MoveFound (move : option string) (fen : Json)
| MissingFen
| Failed (cause : failure).

Definition status (r : response) : nat :=
  match r with
  | MoveFound _ _ => 200
  | MissingFen => 400
  | Failed _ => 500
  end.

(** The [/move] route when [request.json] is a dictionary [data].
    [data.get('elo', 1500)] is [None] here when the key is absent, and then
    stands for 1500. [int(target_elo)] is evaluated before the call of
    [get_move], whose first statement is [chess.Board(fen)]. *)
Definition move_route (data : gmap string Json) : M response :=
  let fen := data !! "fen"%string in
  let target_elo := data !! "elo"%string in
  match fen with
  | None => ret MissingFen
  | Some fen =>
      if negb (json_truth fen) then ret MissingFen
      else
        match (match target_elo with
               | None => Some 1500%Z
               | Some value => json_int value
               end) with
        | None => ret (Failed BadRating)
        | Some rating =>
            match json_board fen with
            | None => ret (Failed BadPosition)
            | Some position =>
                try_except
                  (best_move <- get_move position rating ;;
                   ret (MoveFound best_move fen))
                  (fun e => ret (Failed (EngineRaised e)))
            end
        end
  end.

(** What [request.json] yields for a JSON body: the dictionary of an
    object, or another value (a list, a text, a number, a boolean,
    [None]). *)
Inductive request_json : Type :=
| JsonObject (data : gmap string Json)
| JsonOther.

(** The [/move] route from [data = request.json] on. [data.get('fen')]
    stands before the guarded block: on a value that is not a dictionary it
    raises [AttributeError], which the handler does not catch. *)
Definition move_request (data : request_json) : M response :=
  match data with
  | JsonObject data => move_route data
  | JsonOther => raise AttributeError
  end.

End Requests.

(** ** A second small instance

    The game trees of [Example] under a rules engine that keeps the
    contracts of python-chess: a position is over exactly when it has no
    reply, and the text of a move determines the move. *)

Module Strict.

(** A move is written as a tally of its index, in strokes [i]. *)
Fixpoint tally (move : nat) : string :=
  match move with
  | 0 => EmptyString
  | S k => String (Ascii.ascii_of_nat 105) (tally k)
  end.

Definition no_reply (p : Example.tree) : bool :=
  match Example.replies_of p with
  | [] => true
  | _ :: _ => false
  end.

Definition strict_engine : RulesEngine := {|
  Position := Example.tree;
  Move := nat;
  legal_moves p := seq 0 (length (Example.replies_of p));
  make_move p move := nth move (Example.replies_of p) p;
  turn := Example.white_to_move_of;
  piece_at := Example.piece_on;
  game_over p _ := no_reply p;
  game_result p _ := Example.outcome_text_of p;
  uci := tally;
  from_uci text := Some (String.length text);
  move_bool _ := true;
  starting_position := Example.root;
|}.

(** Request values: a text naming one of the trees, a number, or null. *)
Inductive value : Type :=
| Null
| Text (text : string)
| Number (z : Z).

Definition value_truth (v : value) : bool :=
  match v with
  | Null => false
  | Text text => negb (String.eqb text ""%string)
  | Number z => negb (z =? 0)%Z
  end.

Definition value_board (v : value) : option Example.tree :=
  match v with
  | Text text =>
      if String.eqb text "root"%string then Some Example.root
      else if String.eqb text "kings"%string then Some Example.bare_kings
      else None
  | _ => None
  end.

Definition value_int (v : value) : option Z :=
  match v with
  | Number z => Some z
  | _ => None
  end.

Definition strict_requests : @RequestValues strict_engine :=
  @Build_RequestValues strict_engine value value_truth value_board value_int.

Definition strict_world (tape : Rng) (can_write : bool)
  : @World strict_engine Example.material_network :=
  @Build_World strict_engine Example.material_network
    0%Z 0 tape None can_write [].

(** Worlds for the strict engine: a quiet one, one that differs from it in
    everything but the network, and one whose model file cannot be
    written. *)
Definition strict_quiet : @World strict_engine Example.material_network :=
  strict_world (Example.constant_tape (1 # 2) 0) true.

Definition strict_other : @World strict_engine Example.material_network :=
  @Build_World strict_engine Example.material_network
    0%Z 3 (Example.constant_tape (1 # 4) 7) (Some 5%Z) false [].

Definition strict_read_only : @World strict_engine Example.material_network :=
  strict_world (Example.constant_tape (1 # 2) 0) false.


(** The body of a request for a move at the root, rated 2000. *)
Definition root_request : gmap string value :=
  <["elo"%string := Number 2000]> {[ "fen"%string := Text "root"%string ]}.

End Strict.

(** * Properties *)

(** ** The position encoder *)

Section EncoderProperties.

Context `{RulesEngine}.

Lemma list_index_pieces (t : PieceType) :
  list_index t pieces = Return (piece_type_rank t).
Proof. destruct t; reflexivity. Qed.

Lemma slot_div (square : nat) (piece : Piece) : slot square piece / 12 = square.
Proof.
  unfold slot. symmetry.
  apply Nat.div_unique with
    (r := piece_type_rank (piece_type piece) + (if color piece then 0 else 6)).
  - destruct (piece_type piece), (color piece); simpl; lia.
  - lia.
Qed.

Lemma slot_lt (square : nat) (piece : Piece) :
  square < 64 -> slot square piece < 768.
Proof.
  unfold slot. destruct (piece_type piece), (color piece); simpl; lia.
Qed.

Lemma length_encoded_prefix (board : Board) (k : nat) :
  length (encoded_prefix board k) = 768.
Proof. unfold encoded_prefix. rewrite length_fmap, length_seq. reflexivity. Qed.

Lemma lookup_encoded_prefix (board : Board) (k i : nat) :
  i < 768 ->
  encoded_prefix board k !! i
  = Some (if i / 12 <? k then encoded_entry board i else 0%Q).
Proof.
  intros Hi. unfold encoded_prefix.
  rewrite list_lookup_fmap, lookup_seq_lt by exact Hi. reflexivity.
Qed.

Lemma encoded_entry_slot (board : Board) (square : nat) (piece : Piece) :
  piece_at (current board) square = Some piece ->
  encoded_entry board (slot square piece) = 1%Q.
Proof.
  intros Hp. unfold encoded_entry. rewrite slot_div, Hp, Nat.eqb_refl.
  reflexivity.
Qed.

Lemma encoded_entry_other (board : Board) (i : nat) :
  (forall piece, piece_at (current board) (i / 12) = Some piece ->
                 slot (i / 12) piece <> i) ->
  encoded_entry board i = 0%Q.
Proof.
  intros Hne. unfold encoded_entry.
  destruct (piece_at (current board) (i / 12)) as [piece|] eqn:Hp; [|reflexivity].
  destruct (Nat.eqb_spec (slot (i / 12) piece) i) as [Heq|]; [|reflexivity].
  exfalso. exact (Hne piece eq_refl Heq).
Qed.

(** One iteration of the loop fills exactly the block of its square. *)
Lemma encode_square_prefix (board : Board) (k : nat) :
  k < 64 ->
  encode_square board (encoded_prefix board k) k
  = Return (encoded_prefix board (S k)).
Proof.
  intros Hk. unfold encode_square.
  destruct (piece_at (current board) k) as [piece|] eqn:Hp.
  - rewrite list_index_pieces. unfold setitem.
    assert (Hidx : k * 12 + (piece_type_rank (piece_type piece)
                             + (if color piece then 0 else 6))
                   = slot k piece) by (unfold slot; lia).
    rewrite Hidx, length_encoded_prefix.
    pose proof (slot_lt k piece Hk) as Hlt.
    destruct (Nat.ltb_spec (slot k piece) 768) as [_|]; [|lia].
    f_equal. apply list_eq. intros i.
    destruct (decide (i = slot k piece)) as [->|Hne].
    + rewrite list_lookup_insert_eq by (rewrite length_encoded_prefix; lia).
      rewrite lookup_encoded_prefix by lia.
      rewrite slot_div.
      destruct (Nat.ltb_spec k (S k)); [|lia].
      rewrite encoded_entry_slot by exact Hp. reflexivity.
    + rewrite list_lookup_insert_ne by congruence.
      destruct (Nat.lt_ge_cases i 768) as [Hi|Hi].
      * rewrite !lookup_encoded_prefix by lia. f_equal.
        destruct (Nat.ltb_spec (i / 12) k), (Nat.ltb_spec (i / 12) (S k));
          try reflexivity; try lia.
        assert (Hik : i / 12 = k) by lia.
        symmetry. apply encoded_entry_other. intros piece'.
        rewrite Hik, Hp. intros [= <-]. congruence.
      * rewrite !lookup_ge_None_2 by (rewrite length_encoded_prefix; lia).
        reflexivity.
  - f_equal. apply list_eq. intros i.
    destruct (Nat.lt_ge_cases i 768) as [Hi|Hi].
    + rewrite !lookup_encoded_prefix by lia. f_equal.
      destruct (Nat.ltb_spec (i / 12) k), (Nat.ltb_spec (i / 12) (S k));
        try reflexivity; try lia.
      assert (Hik : i / 12 = k) by lia.
      symmetry. apply encoded_entry_other. intros piece'.
      rewrite Hik, Hp. discriminate.
    + rewrite !lookup_ge_None_2 by (rewrite length_encoded_prefix; lia).
      reflexivity.
Qed.

Lemma encode_squares_prefix (board : Board) (n k : nat) :
  k + n = 64 ->
  encode_squares board (encoded_prefix board k) (seq k n)
  = Return (encoded_prefix board 64).
Proof.
  revert k. induction n as [|n IH]; intros k Hk; simpl.
  - replace k with 64 by lia. reflexivity.
  - rewrite encode_square_prefix by lia. apply IH. lia.
Qed.

Lemma encoded_prefix_0 (board : Board) :
  encoded_prefix board 0 = replicate 768 0%Q.
Proof.
  apply list_eq. intros i.
  destruct (Nat.lt_ge_cases i 768) as [Hi|Hi].
  - rewrite lookup_encoded_prefix by lia.
    rewrite lookup_replicate_2 by lia. reflexivity.
  - rewrite !lookup_ge_None_2;
      [reflexivity | rewrite length_replicate; lia
      | rewrite length_encoded_prefix; lia].
Qed.

Lemma encoded_prefix_64 (board : Board) :
  encoded_prefix board 64 = encoding board.
Proof.
  apply list_eq. intros i. unfold encoding.
  destruct (Nat.lt_ge_cases i 768) as [Hi|Hi].
  - rewrite lookup_encoded_prefix by lia.
    rewrite list_lookup_fmap, lookup_seq_lt by exact Hi.
    assert (i / 12 < 64) by (apply Nat.Div0.div_lt_upper_bound; lia).
    destruct (Nat.ltb_spec (i / 12) 64); [reflexivity|lia].
  - rewrite !lookup_ge_None_2;
      [reflexivity | rewrite length_fmap, length_seq; lia
      | rewrite length_encoded_prefix; lia].
Qed.

(** The encoder never raises and computes the encoding of the design. *)
Lemma board_to_tensor_total (board : Board) :
  board_to_tensor board = Return [encoding board].
Proof.
  unfold board_to_tensor, SQUARES.
  rewrite <- (encoded_prefix_0 board).
  rewrite encode_squares_prefix by reflexivity.
  rewrite encoded_prefix_64. reflexivity.
Qed.

Lemma set_entries_insert (x : list Q) (i : nat) :
  x !! i = Some 0%Q -> set_entries (<[i := 1%Q]> x) = S (set_entries x).
Proof.
  revert i. induction x as [|v x IH]; intros i Hi; [discriminate|].
  destruct i as [|i]; simpl in *.
  - injection Hi as ->. reflexivity.
  - unfold set_entries in *. simpl.
    destruct (Qeq_bool v 1); simpl; rewrite (IH i Hi); reflexivity.
Qed.

Lemma encoded_prefix_S (board : Board) (k : nat) :
  k < 64 ->
  encoded_prefix board (S k)
  = match piece_at (current board) k with
    | Some piece => <[slot k piece := 1%Q]> (encoded_prefix board k)
    | None => encoded_prefix board k
    end.
Proof.
  intros Hk. pose proof (encode_square_prefix board k Hk) as Hstep.
  unfold encode_square in Hstep.
  destruct (piece_at (current board) k) as [piece|].
  - rewrite list_index_pieces in Hstep. unfold setitem in Hstep.
    replace (k * 12 + (piece_type_rank (piece_type piece)
                       + (if color piece then 0 else 6)))
      with (slot k piece) in Hstep by (unfold slot; lia).
    destruct (slot k piece <? length (encoded_prefix board k));
      congruence.
  - congruence.
Qed.

Lemma set_entries_prefix (board : Board) (k : nat) :
  k <= 64 ->
  set_entries (encoded_prefix board k)
  = length (List.filter (occupied board) (seq 0 k)).
Proof.
  induction k as [|k IH]; intros Hk.
  - rewrite encoded_prefix_0. vm_compute. reflexivity.
  - rewrite seq_S, List.filter_app, length_app, <- IH by lia. simpl.
    rewrite encoded_prefix_S by lia. unfold occupied.
    destruct (piece_at (current board) k) as [piece|]; simpl; [|lia].
    rewrite set_entries_insert; [lia|].
    rewrite lookup_encoded_prefix by (apply slot_lt; lia).
    rewrite slot_div.
    destruct (Nat.ltb_spec k k); [lia|reflexivity].
Qed.

Lemma lookup_encoding (board : Board) (i : nat) :
  i < 768 -> encoding board !! i = Some (encoded_entry board i).
Proof.
  intros Hi. unfold encoding.
  rewrite list_lookup_fmap, lookup_seq_lt by exact Hi. reflexivity.
Qed.

Lemma length_encoding (board : Board) : length (encoding board) = 768.
Proof. unfold encoding. rewrite length_fmap, length_seq. reflexivity. Qed.

(** C3. [board_to_tensor] never raises; it returns one row of length 768
    whose entries are 0 or 1; the number of entries set to 1 is the number of
    occupied squares; the piece on an occupied square sets the entry at
    [square * 12 + rank + (0 for White, 6 for Black)]; every entry that is
    not the slot of a piece on the board is 0; and the result is a function
    of the piece placement alone (the encoder reads the board and changes
    nothing). *)
Theorem board_to_tensor_encodes (board : Board) :
  exists x : list Q,
    board_to_tensor board = Return [x]
    /\ length x = 768
    /\ (forall i v, x !! i = Some v -> v = 0%Q \/ v = 1%Q)
    /\ set_entries x = occupied_squares board
    /\ (forall square piece,
          square < 64 ->
          piece_at (current board) square = Some piece ->
          x !! (square * 12 + piece_type_rank (piece_type piece)
                + (if color piece then 0 else 6)) = Some 1%Q)
    /\ (forall i,
          i < 768 ->
          (forall square piece,
             square < 64 ->
             piece_at (current board) square = Some piece ->
             i <> square * 12 + piece_type_rank (piece_type piece)
                  + (if color piece then 0 else 6)) ->
          x !! i = Some 0%Q)
    /\ (forall board' : Board,
          (forall square, square < 64 ->
             piece_at (current board') square = piece_at (current board) square) ->
          board_to_tensor board' = Return [x]).
Proof.
  exists (encoding board). repeat apply conj.
  - apply board_to_tensor_total.
  - apply length_encoding.
  - intros i v Hv.
    assert (Hi : i < 768).
    { apply lookup_lt_Some in Hv. rewrite length_encoding in Hv. exact Hv. }
    rewrite lookup_encoding in Hv by exact Hi. injection Hv as <-.
    unfold encoded_entry.
    destruct (piece_at (current board) (i / 12)) as [piece|]; [|now left].
    destruct (slot (i / 12) piece =? i); [now right|now left].
  - rewrite <- encoded_prefix_64. unfold occupied_squares, SQUARES.
    apply set_entries_prefix. lia.
  - intros square piece Hsq Hp.
    change (encoding board !! slot square piece = Some 1%Q).
    rewrite lookup_encoding by (apply slot_lt; exact Hsq).
    rewrite encoded_entry_slot by exact Hp. reflexivity.
  - intros i Hi Hother.
    rewrite lookup_encoding by exact Hi. f_equal.
    apply encoded_entry_other. intros piece Hp Heq.
    apply (Hother (i / 12) piece).
    + apply Nat.Div0.div_lt_upper_bound. lia.
    + exact Hp.
    + symmetry. exact Heq.
  - intros board' Hsame. rewrite board_to_tensor_total. do 2 f_equal.
    apply list_eq. intros i.
    destruct (Nat.lt_ge_cases i 768) as [Hi|Hi].
    + rewrite !lookup_encoding by exact Hi. f_equal.
      unfold encoded_entry. rewrite Hsame; [reflexivity|].
      apply Nat.Div0.div_lt_upper_bound. lia.
    + rewrite !lookup_ge_None_2; [reflexivity| |];
        rewrite length_encoding; lia.
Qed.

End EncoderProperties.

(** ** Scores *)

Lemma smax_Fin (x y : Z) : smax (Fin x) (Fin y) = Fin (Z.max x y).
Proof. unfold smax, slt. destruct (Z.ltb_spec x y); f_equal; lia. Qed.

Lemma smin_Fin (x y : Z) : smin (Fin x) (Fin y) = Fin (Z.min x y).
Proof. unfold smin, slt. destruct (Z.ltb_spec y x); f_equal; lia. Qed.

Lemma smax_NegInf (a : score) : smax NegInf a = a.
Proof. destruct a; reflexivity. Qed.

Lemma smax_NegInf_r (a : score) : smax a NegInf = a.
Proof. destruct a; reflexivity. Qed.

Lemma smax_PosInf (a : score) : smax PosInf a = PosInf.
Proof. destruct a; reflexivity. Qed.

Lemma smax_PosInf_r (a : score) : smax a PosInf = PosInf.
Proof. destruct a; reflexivity. Qed.

Lemma smin_PosInf (a : score) : smin PosInf a = a.
Proof. destruct a; reflexivity. Qed.

Lemma smin_PosInf_r (a : score) : smin a PosInf = a.
Proof. destruct a; reflexivity. Qed.

Lemma smin_NegInf (a : score) : smin NegInf a = NegInf.
Proof. destruct a; reflexivity. Qed.

Lemma smin_NegInf_r (a : score) : smin a NegInf = NegInf.
Proof. destruct a; reflexivity. Qed.

Create Rewrite HintDb score.

#[local] Hint Rewrite smax_Fin smin_Fin smax_NegInf smax_NegInf_r smax_PosInf
  smax_PosInf_r smin_PosInf smin_PosInf_r smin_NegInf smin_NegInf_r : score.

(** Decides a statement about the order of a few scores: by cases on which
    of them are infinite, then linear arithmetic on the finite ones. *)
Ltac score_cases :=
  unfold clamp in *;
  repeat match goal with s : score |- _ => destruct s end;
  autorewrite with score in *;
  cbn [sle slt] in *;
  try discriminate;
  repeat match goal with H : Fin _ = Fin _ |- _ => injection H as H end;
  try reflexivity;
  try (f_equal; lia);
  try lia.

Lemma smax_assoc (a b c : score) : smax (smax a b) c = smax a (smax b c).
Proof. score_cases. Qed.

Lemma smin_assoc (a b c : score) : smin (smin a b) c = smin a (smin b c).
Proof. score_cases. Qed.

Lemma clamp_full_window (v : score) : clamp NegInf PosInf v = v.
Proof. score_cases. Qed.

Lemma fold_smax_acc {A} (g : A -> score) (l : list A) (acc : score) :
  fold_left (fun best m => smax best (g m)) l acc
  = smax acc (fold_left (fun best m => smax best (g m)) l NegInf).
Proof.
  revert acc. induction l as [|m l IH]; intros acc; simpl.
  - destruct acc; reflexivity.
  - rewrite (IH (smax acc (g m))), (IH (smax NegInf (g m))).
    rewrite smax_NegInf. apply smax_assoc.
Qed.

Lemma fold_smin_acc {A} (g : A -> score) (l : list A) (acc : score) :
  fold_left (fun best m => smin best (g m)) l acc
  = smin acc (fold_left (fun best m => smin best (g m)) l PosInf).
Proof.
  revert acc. induction l as [|m l IH]; intros acc; simpl.
  - destruct acc; reflexivity.
  - rewrite (IH (smin acc (g m))), (IH (smin PosInf (g m))).
    rewrite smin_PosInf. apply smin_assoc.
Qed.

Lemma sle_refl (a : score) : sle a a = true.
Proof. score_cases. Qed.

Lemma sle_PosInf (a : score) : sle a PosInf = true.
Proof. score_cases. Qed.

Lemma clamp_low (a b x : score) : sle x a = true -> clamp a b x = a.
Proof. intros. score_cases. Qed.

Lemma clamp_high (a b x : score) :
  slt a b = true -> sle b x = true -> clamp a b x = b.
Proof. intros. score_cases. Qed.

Lemma sle_smax_l (b x y : score) : sle b x = true -> sle b (smax x y) = true.
Proof. intros. score_cases. Qed.

Lemma sle_smax_r (b x y : score) : sle b y = true -> sle b (smax x y) = true.
Proof. intros. score_cases. Qed.

Lemma sle_smin_l (a x y : score) : sle x a = true -> sle (smin x y) a = true.
Proof. intros. score_cases. Qed.

Lemma sle_smin_r (a x y : score) : sle y a = true -> sle (smin x y) a = true.
Proof. intros. score_cases. Qed.

Lemma sle_smax_inv (x y v : score) :
  sle (smax x y) v = true -> sle x v = true /\ sle y v = true.
Proof. intros. split; score_cases. Qed.

Lemma sle_smin_inv (x y v : score) :
  sle v (smin x y) = true -> sle v x = true /\ sle v y = true.
Proof. intros. split; score_cases. Qed.

Lemma sle_smax_mono (x a e : score) :
  sle x a = true -> sle (smax x e) (smax a e) = true.
Proof. intros. score_cases. Qed.

Lemma sle_smin_mono (b x e : score) :
  sle b x = true -> sle (smin b e) (smin x e) = true.
Proof. intros. score_cases. Qed.

(** What a cutoff in the maximizing loop tells of the move just searched. *)
Lemma max_cut_info (a b e mc : score) :
  slt a b = true -> clamp a b e = clamp a b mc ->
  sle b (smax a e) = true ->
  sle b e = true /\ sle b mc = true.
Proof. intros. split; score_cases. Qed.

Lemma max_go_info (a b e mc : score) :
  slt a b = true -> clamp a b e = clamp a b mc ->
  sle b (smax a e) = false ->
  slt e b = true /\ slt mc b = true /\ smax a e = smax a mc.
Proof. intros. repeat apply conj; score_cases. Qed.

Lemma min_cut_info (a b e mc : score) :
  slt a b = true -> clamp a b e = clamp a b mc ->
  sle (smin b e) a = true ->
  sle e a = true /\ sle mc a = true.
Proof. intros. split; score_cases. Qed.

Lemma min_go_info (a b e mc : score) :
  slt a b = true -> clamp a b e = clamp a b mc ->
  sle (smin b e) a = false ->
  slt a e = true /\ slt a mc = true /\ smin b e = smin b mc.
Proof. intros. repeat apply conj; score_cases. Qed.

Lemma clamp_raise_alpha (a b e v : score) :
  slt e b = true -> sle e v = true -> clamp (smax a e) b v = clamp a b v.
Proof. intros. score_cases. Qed.

Lemma clamp_lower_beta (a b e v : score) :
  sle v e = true -> clamp a (smin b e) v = clamp a b v.
Proof. intros. score_cases. Qed.

Lemma clamp_absorb_max (a b x r : score) :
  sle x a = true -> clamp a b (smax x r) = clamp a b r.
Proof. intros. score_cases. Qed.

Lemma clamp_absorb_min (a b x r : score) :
  slt a b = true -> sle b x = true -> clamp a b (smin x r) = clamp a b r.
Proof. intros. score_cases. Qed.

Lemma clamp_shift_max (a b mc r : score) :
  slt mc b = true -> clamp (smax a mc) b r = clamp a b (smax mc r).
Proof. intros. score_cases. Qed.

Lemma clamp_shift_min (a b mc r : score) :
  clamp a (smin b mc) r = clamp a b (smin mc r).
Proof. score_cases. Qed.

Lemma slt_smax_alpha (a b e : score) :
  slt a b = true -> sle b (smax a e) = false -> slt (smax a e) b = true.
Proof. intros. score_cases. Qed.

Lemma slt_smin_beta (a b e : score) :
  slt a b = true -> sle (smin b e) a = false -> slt a (smin b e) = true.
Proof. intros. score_cases. Qed.

(** ** The search engine *)

Section SearchProperties.

Context `{RulesEngine} `{Network}.

Lemma add_events_nil (w : World) : add_events [] w = w.
Proof. destruct w; reflexivity. Qed.

Lemma add_events_app (evs1 evs2 : list event) (w : World) :
  add_events evs2 (add_events evs1 w) = add_events (evs2 ++ evs1) w.
Proof. unfold add_events; simpl. rewrite app_assoc. reflexivity. Qed.

Lemma pop_push (board : Board) (move : Move) :
  pop (push board move) = Return board.
Proof. destruct board; reflexivity. Qed.

Lemma evaluate_run (board : Board) (w : World) :
  evaluate board w
  = (Return (leaf_value (model w) board), add_events [Evaluated board] w).
Proof.
  unfold evaluate, bind, lift. rewrite board_to_tensor_total. reflexivity.
Qed.

Lemma leaf_event_push (board : Board) (move : Move) (d : nat) (e : event) :
  leaf_event (length (stack (push board move))) d e ->
  leaf_event (length (stack board)) (S d) e.
Proof.
  destruct e; simpl; try tauto. intros [Hover|Hlen]; [left; exact Hover|].
  right. lia.
Qed.

Lemma max_loop_ok (d : nat) (G : Params -> Board -> bool -> score)
  (rec : Board -> score -> score -> bool -> M (score * Board)) :
  search_ok d G rec ->
  forall moves board a b best w,
  exists v evs,
    max_loop rec moves board a b best w = (Return (v, board), add_events evs w)
    /\ Forall (leaf_event (length (stack board)) (S d)) evs
    /\ (slt a b = true -> sle best a = true ->
        clamp a b v
        = clamp a b
            (fold_left (fun acc m => smax acc (G (model w) (push board m) false))
               moves best)
        /\ sle best v = true).
Proof.
  intros Hrec moves. induction moves as [|m rest IH]; intros board a b best w.
  - exists best, []. simpl. rewrite add_events_nil.
    repeat apply conj; [reflexivity|constructor|].
    intros _ _. split; [reflexivity|apply sle_refl].
  - destruct (Hrec (push board m) a b false w) as (e & evs1 & Hrun & Hleaf & Hval).
    cbn [max_loop]. unfold bind at 1. rewrite Hrun.
    unfold bind at 1, lift at 1. rewrite pop_push.
    assert (Hleaf1 : Forall (leaf_event (length (stack board)) (S d)) evs1).
    { eapply Forall_impl; [exact Hleaf|]. intros x. apply leaf_event_push. }
    cbn [fold_left]. rewrite fold_smax_acc.
    set (mc := G (model w) (push board m) false) in *.
    destruct (sle b (smax a e)) eqn:Hcut.
    + exists (smax best e), evs1.
      repeat apply conj; [reflexivity|exact Hleaf1|].
      intros Hab Hbest. specialize (Hval Hab).
      destruct (max_cut_info a b e mc Hab Hval Hcut) as [He Hmc].
      split; [|apply sle_smax_l, sle_refl].
      rewrite !clamp_high; auto using sle_smax_l, sle_smax_r.
    + destruct (IH board (smax a e) b (smax best e) (add_events evs1 w))
        as (v & evs2 & Hrun2 & Hleaf2 & Hval2).
      exists v, (evs2 ++ evs1). rewrite Hrun2, add_events_app.
      repeat apply conj; [reflexivity|apply Forall_app; split; assumption|].
      intros Hab Hbest. specialize (Hval Hab).
      destruct (max_go_info a b e mc Hab Hval Hcut) as (He & Hmc & Heq).
      destruct (Hval2 (slt_smax_alpha a b e Hab Hcut)
                  (sle_smax_mono best a e Hbest)) as [Hv Hle].
      destruct (sle_smax_inv best e v Hle) as [Hbv Hev].
      split; [|exact Hbv].
      rewrite clamp_raise_alpha in Hv by assumption.
      rewrite fold_smax_acc in Hv.
      rewrite clamp_absorb_max in Hv by (apply sle_smax_mono; exact Hbest).
      rewrite Heq, clamp_shift_max in Hv by exact Hmc.
      rewrite Hv, smax_assoc, (clamp_absorb_max a b best) by exact Hbest.
      reflexivity.
Qed.

Lemma min_loop_ok (d : nat) (G : Params -> Board -> bool -> score)
  (rec : Board -> score -> score -> bool -> M (score * Board)) :
  search_ok d G rec ->
  forall moves board a b best w,
  exists v evs,
    min_loop rec moves board a b best w = (Return (v, board), add_events evs w)
    /\ Forall (leaf_event (length (stack board)) (S d)) evs
    /\ (slt a b = true -> sle b best = true ->
        clamp a b v
        = clamp a b
            (fold_left (fun acc m => smin acc (G (model w) (push board m) true))
               moves best)
        /\ sle v best = true).
Proof.
  intros Hrec moves. induction moves as [|m rest IH]; intros board a b best w.
  - exists best, []. simpl. rewrite add_events_nil.
    repeat apply conj; [reflexivity|constructor|].
    intros _ _. split; [reflexivity|apply sle_refl].
  - destruct (Hrec (push board m) a b true w) as (e & evs1 & Hrun & Hleaf & Hval).
    cbn [min_loop]. unfold bind at 1. rewrite Hrun.
    unfold bind at 1, lift at 1. rewrite pop_push.
    assert (Hleaf1 : Forall (leaf_event (length (stack board)) (S d)) evs1).
    { eapply Forall_impl; [exact Hleaf|]. intros x. apply leaf_event_push. }
    cbn [fold_left]. rewrite fold_smin_acc.
    set (mc := G (model w) (push board m) true) in *.
    destruct (sle (smin b e) a) eqn:Hcut.
    + exists (smin best e), evs1.
      repeat apply conj; [reflexivity|exact Hleaf1|].
      intros Hab Hbest. specialize (Hval Hab).
      destruct (min_cut_info a b e mc Hab Hval Hcut) as [He Hmc].
      split; [|apply sle_smin_l, sle_refl].
      rewrite !clamp_low; auto using sle_smin_l, sle_smin_r.
    + destruct (IH board a (smin b e) (smin best e) (add_events evs1 w))
        as (v & evs2 & Hrun2 & Hleaf2 & Hval2).
      exists v, (evs2 ++ evs1). rewrite Hrun2, add_events_app.
      repeat apply conj; [reflexivity|apply Forall_app; split; assumption|].
      intros Hab Hbest. specialize (Hval Hab).
      destruct (min_go_info a b e mc Hab Hval Hcut) as (He & Hmc & Heq).
      destruct (Hval2 (slt_smin_beta a b e Hab Hcut)
                  (sle_smin_mono b best e Hbest)) as [Hv Hle].
      destruct (sle_smin_inv best e v Hle) as [Hbv Hev].
      split; [|exact Hbv].
      rewrite clamp_lower_beta in Hv by assumption.
      rewrite fold_smin_acc in Hv.
      rewrite clamp_absorb_min in Hv
        by (try apply slt_smin_beta; try apply sle_smin_mono; assumption).
      rewrite Heq, clamp_shift_min in Hv.
      rewrite Hv, smin_assoc, (clamp_absorb_min a b best) by assumption.
      reflexivity.
Qed.

(** The search returns, restores the board, evaluates at leaves only, and
    inside an open window agrees with full minimax. *)
Lemma minimax_ok (d : nat) :
  search_ok d (fun parameters board mx => full_minimax parameters d board mx)
    (minimax d).
Proof.
  induction d as [|d IH]; intros board alpha beta mx w.
  - exists (leaf_value (model w) board), [Evaluated board].
    cbn [minimax]. unfold bind. rewrite evaluate_run.
    repeat apply conj; [reflexivity| |reflexivity].
    constructor; [|constructor]. right. simpl. lia.
  - cbn [minimax full_minimax].
    destruct (is_game_over board) eqn:Hover.
    + exists (leaf_value (model w) board), [Evaluated board].
      unfold bind. rewrite evaluate_run.
      repeat apply conj; [reflexivity| |reflexivity].
      constructor; [|constructor]. left. exact Hover.
    + destruct mx.
      * destruct (max_loop_ok d _ _ IH (legal_moves (current board))
                    board alpha beta NegInf w) as (v & evs & Hrun & Hleaf & Hval).
        exists v, evs. repeat apply conj; [exact Hrun|exact Hleaf|].
        intros Hab. apply Hval; [exact Hab|reflexivity].
      * destruct (min_loop_ok d _ _ IH (legal_moves (current board))
                    board alpha beta PosInf w) as (v & evs & Hrun & Hleaf & Hval).
        exists v, evs. repeat apply conj; [exact Hrun|exact Hleaf|].
        intros Hab. apply Hval; [exact Hab|apply sle_PosInf].
Qed.

(** C2. From the full window, alpha-beta search returns exactly the value of
    full minimax without pruning, for every board, depth and role. *)
Theorem alphabeta_equals_full_minimax (depth : nat) (board : Board)
  (maximizing_player : bool) (w : World) :
  fst (minimax depth board NegInf PosInf maximizing_player w)
  = Return (full_minimax (model w) depth board maximizing_player, board).
Proof.
  destruct (minimax_ok depth board NegInf PosInf maximizing_player w)
    as (v & evs & Hrun & _ & Hval).
  rewrite Hrun. simpl. specialize (Hval eq_refl).
  rewrite !clamp_full_window in Hval. rewrite Hval. reflexivity.
Qed.

(** C4. At depth 0, and at any depth on a terminal board, the search returns
    the evaluator's value of the encoded board and makes that one evaluator
    call; in every search each evaluator call is made on a board that is
    terminal or lies at the full depth below the root, so that a node which
    is expanded is never evaluated itself. *)
Theorem minimax_evaluates_at_leaves_only (depth : nat) (board : Board)
  (alpha beta : score) (maximizing_player : bool) (w : World) :
  (depth = 0 \/ is_game_over board = true ->
   exists tensor,
     board_to_tensor board = Return tensor
     /\ minimax depth board alpha beta maximizing_player w
        = (Return (Fin (forward (model w) tensor), board),
           add_events [Evaluated board] w))
  /\ (exists v evs,
        minimax depth board alpha beta maximizing_player w
        = (Return (v, board), add_events evs w)
        /\ Forall (leaf_event (length (stack board)) depth) evs
        /\ (depth <> 0 -> is_game_over board = false ->
            ~ In (Evaluated board) evs)).
Proof.
  split.
  - intros Hleaf. exists [encoding board].
    split; [apply board_to_tensor_total|].
    destruct depth as [|d]; cbn [minimax].
    + unfold bind. rewrite evaluate_run. reflexivity.
    + destruct Hleaf as [Hd|Hover]; [discriminate|].
      rewrite Hover. unfold bind. rewrite evaluate_run. reflexivity.
  - destruct (minimax_ok depth board alpha beta maximizing_player w)
      as (v & evs & Hrun & Hleaf & _).
    exists v, evs. repeat apply conj; [exact Hrun|exact Hleaf|].
    intros Hd Hover Hin.
    rewrite List.Forall_forall in Hleaf. specialize (Hleaf _ Hin).
    simpl in Hleaf. destruct Hleaf as [Hterm|Hlen]; [congruence|lia].
Qed.

Lemma leaf_event_is_evaluation (base d : nat) (e : event) :
  leaf_event base d e -> is_evaluation e.
Proof. destruct e; simpl; tauto. Qed.

(** The root loop hands the board back, keeps the move that [root_pick]
    keeps when a candidate is scored by full minimax in the role that
    [get_move] passes, and adds evaluations only to the world. *)
Lemma root_loop_ok (depth : nat) (moves : list Move) (board : Board)
  (best_move : option Move) (best_val : score) (w : World) :
  exists evs,
    root_loop depth moves board best_move best_val w
    = (Return
         (root_pick
            (fun move =>
               full_minimax (model w) (depth - 1) (push board move)
                 (negb (turn (current (push board move)))))
            (turn (current board)) moves best_move best_val,
          board),
       add_events evs w)
    /\ Forall is_evaluation evs.
Proof.
  revert best_move best_val w.
  induction moves as [|m rest IH]; intros best_move best_val w.
  - exists []. rewrite add_events_nil. split; [reflexivity|constructor].
  - destruct (minimax_ok (depth - 1) (push board m) NegInf PosInf
                (negb (turn (current (push board m)))) w)
      as (v & evs1 & Hrun & Hleaf & Hval).
    specialize (Hval eq_refl). rewrite !clamp_full_window in Hval.
    cbv beta in Hval. subst v.
    cbn [root_loop root_pick]. unfold bind at 1. rewrite Hrun.
    unfold bind at 1, lift at 1. rewrite pop_push.
    set (val := full_minimax (model w) (depth - 1) (push board m)
                  (negb (turn (current (push board m))))).
    assert (Hev1 : Forall is_evaluation evs1).
    { eapply Forall_impl; [exact Hleaf|].
      intros x. apply leaf_event_is_evaluation. }
    assert (Hstep : forall bm bv,
      exists evs,
        root_loop depth rest board bm bv (add_events evs1 w)
        = (Return
             (root_pick
                (fun move =>
                   full_minimax (model w) (depth - 1) (push board move)
                     (negb (turn (current (push board move)))))
                (turn (current board)) rest bm bv,
              board),
           add_events evs w)
        /\ Forall is_evaluation evs).
    { intros bm bv. destruct (IH bm bv (add_events evs1 w)) as (evs2 & Hrun2 & Hev2).
      exists (evs2 ++ evs1). rewrite Hrun2, add_events_app.
      split; [reflexivity|apply Forall_app; split; assumption]. }
    destruct (turn (current board)).
    + destruct (slt best_val val); apply Hstep.
    + destruct (slt val best_val); apply Hstep.
Qed.

(** C9. A search hands the board back exactly as it received it: [minimax]
    at every depth and window, each of its two loops from any point of the
    enumeration (hence after every move tried, and at a cutoff), and the
    root loop of [get_move]. *)
Theorem search_restores_board (depth : nat) (board : Board)
  (alpha beta : score) (maximizing_player : bool) (w : World) :
  (exists v w',
     minimax depth board alpha beta maximizing_player w
     = (Return (v, board), w'))
  /\ (forall moves best,
        exists v w',
          max_loop (minimax depth) moves board alpha beta best w
          = (Return (v, board), w'))
  /\ (forall moves best,
        exists v w',
          min_loop (minimax depth) moves board alpha beta best w
          = (Return (v, board), w'))
  /\ (forall moves best_move best_val,
        exists best w',
          root_loop depth moves board best_move best_val w
          = (Return (best, board), w')).
Proof.
  repeat apply conj.
  - destruct (minimax_ok depth board alpha beta maximizing_player w)
      as (v & evs & Hrun & _). eauto.
  - intros moves best.
    destruct (max_loop_ok depth _ _ (minimax_ok depth) moves board alpha beta
                best w) as (v & evs & Hrun & _). eauto.
  - intros moves best.
    destruct (min_loop_ok depth _ _ (minimax_ok depth) moves board alpha beta
                best w) as (v & evs & Hrun & _). eauto.
  - intros moves best_move best_val.
    destruct (root_loop_ok depth moves board best_move best_val w)
      as (evs & Hrun & _). eauto.
Qed.

End SearchProperties.

(** ** The move selector *)

Section MoveSelectorProperties.

Context `{RulesEngine} `{Network}.

Lemma serves_refl (w : World) : serves w w.
Proof.
  unfold serves. repeat apply conj; try reflexivity.
  exists []. split; [reflexivity|constructor].
Qed.

Lemma serves_trans (w1 w2 w3 : World) :
  serves w1 w2 -> serves w2 w3 -> serves w1 w3.
Proof.
  intros (Hm & Ho & Hd & Hw & evs1 & He1 & Hf1)
         (Hm' & Ho' & Hd' & Hw' & evs2 & He2 & Hf2).
  unfold serves. repeat apply conj; try congruence.
  exists (evs2 ++ evs1). split.
  - rewrite He2, He1, app_assoc. reflexivity.
  - apply Forall_app. split; assumption.
Qed.

Lemma serves_add_events (evs : list event) (w : World) :
  Forall is_evaluation evs -> serves w (add_events evs w).
Proof.
  intros Hev. unfold serves. repeat apply conj; try reflexivity.
  exists evs. split; [reflexivity|exact Hev].
Qed.

Lemma serves_with_rng (g : Rng) (w : World) : serves w (with_rng g w).
Proof.
  unfold serves. repeat apply conj; try reflexivity.
  exists []. split; [reflexivity|constructor].
Qed.

(** [random.choice] on a sequence that is not empty returns the element at
    the index drawn, and touches the random state only. *)
Lemma random_choice_run {A} (seq : list A) (w : World) :
  seq <> [] ->
  exists a,
    seq !! (indexes (rng w) (cursor (rng w)) mod length seq) = Some a
    /\ random_choice seq w = (Return a, with_rng (advance (rng w)) w).
Proof.
  intros Hne. destruct seq as [|a0 seq]; [congruence|].
  unfold random_choice.
  destruct ((a0 :: seq) !! (indexes (rng w) (cursor (rng w))
                            mod length (a0 :: seq))) as [a|] eqn:Hlook.
  - exists a. split; reflexivity.
  - apply lookup_ge_None in Hlook.
    pose proof (Nat.mod_upper_bound (indexes (rng w) (cursor (rng w)))
                  (length (a0 :: seq))) as Hlt.
    simpl in Hlt, Hlook. lia.
Qed.

Lemma root_pick_in (value_of : Move -> score) (white : bool)
  (moves : list Move) (best_move : option Move) (best_val : score)
  (move : Move) :
  root_pick value_of white moves best_move best_val = Some move ->
  best_move = Some move \/ In move moves.
Proof.
  revert best_move best_val.
  induction moves as [|m rest IH]; intros best_move best_val; simpl.
  - intros ->. left. reflexivity.
  - destruct white.
    + destruct (slt best_val (value_of m)); intros Hpick;
        apply IH in Hpick; destruct Hpick as [Heq|Hin]; auto.
      injection Heq as ->. auto.
    + destruct (slt (value_of m) best_val); intros Hpick;
        apply IH in Hpick; destruct Hpick as [Heq|Hin]; auto.
      injection Heq as ->. auto.
Qed.

(** The search path of [get_move] returns a legal move in text form. *)
Lemma search_root_ok (board : Board) (legal : list Move) (depth : nat)
  (w : World) :
  legal <> [] ->
  exists move w',
    In move legal
    /\ search_root board legal depth w = (Return (Some (uci move)), w')
    /\ serves w w'.
Proof.
  intros Hne. unfold search_root.
  destruct (root_loop_ok depth legal board None
              (if turn (current board) then NegInf else PosInf) w)
    as (evs & Hrun & Hev).
  unfold bind at 1. rewrite Hrun.
  set (pick := root_pick _ _ _ _ _) in *.
  assert (Hfallback :
    exists move w',
      In move legal
      /\ (move <- random_choice legal ;; ret (Some (uci move)))
           (add_events evs w)
         = (Return (Some (uci move)), w')
      /\ serves w w').
  { destruct (random_choice_run legal (add_events evs w) Hne)
      as (a & Hlook & Hchoice).
    exists a, (with_rng (advance (rng (add_events evs w))) (add_events evs w)).
    split; [|split].
    - apply list_elem_of_In. eapply list_elem_of_lookup_2. exact Hlook.
    - unfold bind. rewrite Hchoice. reflexivity.
    - eapply serves_trans;
        [apply serves_add_events; exact Hev|apply serves_with_rng]. }
  destruct pick as [move|] eqn:Hpick; [|exact Hfallback].
  destruct (move_bool move); [|exact Hfallback].
  exists move, (add_events evs w). split; [|split].
  - apply root_pick_in in Hpick. destruct Hpick as [Hnone|Hin];
      [discriminate|exact Hin].
  - reflexivity.
  - apply serves_add_events. exact Hev.
Qed.

Lemma random_move_ok (legal : list Move) (w : World) :
  legal <> [] ->
  exists move w',
    In move legal
    /\ (move <- random_choice legal ;; ret (Some (uci move))) w
       = (Return (Some (uci move)), w')
    /\ serves w w'.
Proof.
  intros Hne.
  destruct (random_choice_run legal w Hne) as (a & Hlook & Hchoice).
  exists a, (with_rng (advance (rng w)) w). split; [|split].
  - apply list_elem_of_In. eapply list_elem_of_lookup_2. exact Hlook.
  - unfold bind. rewrite Hchoice. reflexivity.
  - apply serves_with_rng.
Qed.

(** [get_move] always returns: [None] when there is no legal move, a legal
    move in text form otherwise; the world is only served. *)
Lemma get_move_ok (fen : Position) (target_elo : Z) (w : World) :
  exists r w',
    get_move fen target_elo w = (Return r, w')
    /\ serves w w'
    /\ match r with
       | None => legal_moves fen = []
       | Some text => exists move, In move (legal_moves fen) /\ text = uci move
       end.
Proof.
  unfold get_move. cbn [new_board current].
  destruct (legal_moves fen) as [|m0 rest] eqn:Hlegal.
  - exists None, w. split; [|split]; [reflexivity|apply serves_refl|reflexivity].
  - assert (Hne : m0 :: rest <> []) by discriminate.
    assert (Hsearch : forall depth w1, serves w w1 ->
      exists r w',
        search_root (new_board fen) (m0 :: rest) depth w1 = (Return r, w')
        /\ serves w w'
        /\ match r with
           | None => False
           | Some text => exists move, In move (m0 :: rest) /\ text = uci move
           end).
    { intros depth w1 Hw1.
      destruct (search_root_ok (new_board fen) (m0 :: rest) depth w1 Hne)
        as (move & w' & Hin & Hrun & Hserve).
      exists (Some (uci move)), w'. split; [|split];
        [exact Hrun|eapply serves_trans; eassumption|eauto]. }
    assert (Hrandom : forall w1, serves w w1 ->
      exists r w',
        (move <- random_choice (m0 :: rest) ;; ret (Some (uci move))) w1
        = (Return r, w')
        /\ serves w w'
        /\ match r with
           | None => False
           | Some text => exists move, In move (m0 :: rest) /\ text = uci move
           end).
    { intros w1 Hw1.
      destruct (random_move_ok (m0 :: rest) w1 Hne)
        as (move & w' & Hin & Hrun & Hserve).
      exists (Some (uci move)), w'. split; [|split];
        [exact Hrun|eapply serves_trans; eassumption|eauto]. }
    assert (Hdone : forall (c : M (option string)),
      (exists r w',
         c w = (Return r, w') /\ serves w w'
         /\ match r with
            | None => False
            | Some text => exists move, In move (m0 :: rest) /\ text = uci move
            end) ->
      exists r w',
        c w = (Return r, w') /\ serves w w'
        /\ match r with
           | None => m0 :: rest = []
           | Some text => exists move, In move (m0 :: rest) /\ text = uci move
           end).
    { intros c (r & w' & Hrun & Hserve & Hr). exists r, w'.
      split; [|split]; [exact Hrun|exact Hserve|].
      destruct r; [exact Hr|contradiction]. }
    apply Hdone.
    destruct (target_elo <? 1000)%Z; [|destruct (target_elo <? 1800)%Z].
    + unfold bind at 1, random_random at 1.
      destruct (negb (Qle_bool (1 # 2) (floats (rng w) (cursor (rng w))))).
      * apply Hrandom, serves_with_rng.
      * apply Hsearch, serves_with_rng.
    + unfold bind at 1, random_random at 1.
      destruct (negb (Qle_bool (1 # 5) (floats (rng w) (cursor (rng w))))).
      * apply Hrandom, serves_with_rng.
      * apply Hsearch, serves_with_rng.
    + apply Hsearch, serves_refl.
Qed.

(** C5. On a position with a legal move (every position that is not
    terminal has one) [get_move] follows the tier table with exclusive upper
    bounds. Below 1000 and from 1000 to below 1800 it draws [u] from
    [random()]; when [u] is below the tier's probability (0.5, 0.2) it returns
    [random.choice] of the legal moves at once, the world changed in its
    random state only, so without any evaluation or search; otherwise it
    searches at the tier's depth (1, 2). From 1800 on it draws nothing and
    searches at depth 3. *)
Theorem get_move_applies_tier_table (fen : Position) (rating : Z) (w : World) :
  legal_moves fen <> [] ->
  let legal := legal_moves fen in
  let u := floats (rng w) (cursor (rng w)) in
  let drawn := with_rng (advance (rng w)) w in
  ((rating < 1000)%Z -> tier_of rating = Low)
  /\ ((1000 <= rating < 1800)%Z -> tier_of rating = Mid)
  /\ ((1800 <= rating)%Z -> tier_of rating = High)
  /\ match tier_of rating with
     | High => get_move fen rating w = search_root (new_board fen) legal 3 w
     | t =>
         if negb (Qle_bool (random_probability t) u) then
           exists move,
             legal !! (indexes (rng drawn) (cursor (rng drawn)) mod length legal)
             = Some move
             /\ get_move fen rating w
                = (Return (Some (uci move)), with_rng (advance (rng drawn)) w)
         else
           get_move fen rating w
           = search_root (new_board fen) legal (search_depth t) drawn
     end.
Proof.
  intros Hne. cbv zeta.
  set (u := floats (rng w) (cursor (rng w))).
  set (drawn := with_rng (advance (rng w)) w).
  unfold get_move. cbn [new_board current].
  remember (legal_moves fen) as legal eqn:Hlegal. clear Hlegal.
  unfold tier_of. repeat apply conj.
  - intros Hr. destruct (Z.ltb_spec rating 1000); [reflexivity|lia].
  - intros Hr. destruct (Z.ltb_spec rating 1000); [lia|].
    destruct (Z.ltb_spec rating 1800); [reflexivity|lia].
  - intros Hr. destruct (Z.ltb_spec rating 1000); [lia|].
    destruct (Z.ltb_spec rating 1800); [lia|reflexivity].
  - assert (Hrandom :
      exists move,
        legal !! (indexes (rng drawn) (cursor (rng drawn)) mod length legal)
        = Some move
        /\ (move <- random_choice legal ;; ret (Some (uci move))) drawn
           = (Return (Some (uci move)), with_rng (advance (rng drawn)) w)).
    { destruct (random_choice_run legal drawn Hne) as (a & Hlook & Hchoice).
      exists a. split; [exact Hlook|].
      unfold bind. rewrite Hchoice. reflexivity. }
    destruct legal as [|m0 rest]; [congruence|].
    destruct (rating <? 1000)%Z; [|destruct (rating <? 1800)%Z];
      cbn [random_probability search_depth].
    + destruct (negb (Qle_bool (1 # 2) u)) eqn:Hu;
        unfold bind at 1, random_random at 1;
        change (floats (rng w) (cursor (rng w))) with u; rewrite Hu;
        [exact Hrandom|reflexivity].
    + destruct (negb (Qle_bool (1 # 5) u)) eqn:Hu;
        unfold bind at 1, random_random at 1;
        change (floats (rng w) (cursor (rng w))) with u; rewrite Hu;
        [exact Hrandom|reflexivity].
    + reflexivity.
Qed.

(** C6. [get_move] returns [None] exactly when the position has no legal
    move, and otherwise the text form of a move of the legal-move set,
    whatever the rating; when the root loop ends with no best move, the
    result is [random.choice] of the legal moves. *)
Theorem get_move_returns_legal_move (fen : Position) (target_elo : Z)
  (w : World) :
  (fst (get_move fen target_elo w) = Return None <-> legal_moves fen = [])
  /\ (legal_moves fen <> [] ->
      exists move,
        In move (legal_moves fen)
        /\ fst (get_move fen target_elo w) = Return (Some (uci move)))
  /\ (forall depth best_val w1,
        legal_moves fen <> [] ->
        root_loop depth (legal_moves fen) (new_board fen) None best_val w
        = (Return (None, new_board fen), w1) ->
        exists move,
          In move (legal_moves fen)
          /\ legal_moves fen
             !! (indexes (rng w1) (cursor (rng w1)) mod length (legal_moves fen))
             = Some move
          /\ (best_val = (if turn fen then NegInf else PosInf) ->
              search_root (new_board fen) (legal_moves fen) depth w
              = (Return (Some (uci move)), with_rng (advance (rng w1)) w1))).
Proof.
  destruct (get_move_ok fen target_elo w) as (r & w' & Hrun & _ & Hr).
  rewrite Hrun. cbn [fst]. split; [|split].
  - destruct r as [text|].
    + destruct Hr as (move & Hin & _). split; [discriminate|].
      intros Hnil. rewrite Hnil in Hin. contradiction.
    + split; [intros _; exact Hr|reflexivity].
  - intros Hne. destruct r as [text|]; [|contradiction].
    destruct Hr as (move & Hin & ->). exists move. split; [exact Hin|reflexivity].
  - intros depth best_val w1 Hne Hloop.
    destruct (random_choice_run (legal_moves fen) w1 Hne)
      as (a & Hlook & Hchoice).
    exists a. split; [|split].
    + apply list_elem_of_In. eapply list_elem_of_lookup_2. exact Hlook.
    + exact Hlook.
    + intros ->. unfold search_root. cbn [new_board current] in *.
      unfold bind at 1. rewrite Hloop.
      unfold bind. rewrite Hchoice. reflexivity.
Qed.

(** C10. Serving a request always returns and leaves the parameters of the
    network and the state of the optimizer as they were; the only events it
    adds are forward evaluations, no training step; and after it the
    evaluator gives on every board the value it gave before. *)
Theorem get_move_preserves_model (fen : Position) (target_elo : Z) (w : World) :
  exists r w',
    get_move fen target_elo w = (Return r, w')
    /\ model w' = model w
    /\ optimizer w' = optimizer w
    /\ (exists evs, events w' = evs ++ events w /\ Forall is_evaluation evs)
    /\ (forall board, fst (evaluate board w') = fst (evaluate board w)).
Proof.
  destruct (get_move_ok fen target_elo w)
    as (r & w' & Hrun & (Hm & Ho & _ & _ & Hev) & _).
  exists r, w'. repeat apply conj; try assumption.
  intros board. rewrite !evaluate_run. cbn [fst]. rewrite Hm. reflexivity.
Qed.

End MoveSelectorProperties.

(** ** The trainer *)

Section TrainerProperties.

Context `{RulesEngine} `{Network}.

Lemma bind_Return_inv {A B} (c : M A) (k : A -> M B) (w w' : World) (b : B) :
  bind c k w = (Return b, w') ->
  exists a w1, c w = (Return a, w1) /\ k a w1 = (Return b, w').
Proof.
  unfold bind. destruct (c w) as [[a|e|] w1]; intros Hrun;
    [eauto|discriminate|discriminate].
Qed.

(** The training loop never raises and performs one step per recorded pair,
    in order, each with the reward as its target. *)
Lemma train_on_run (game_history : list (list (list Q) * bool)) (reward : Q)
  (w : World) :
  exists w',
    train_on game_history reward w = (Return tt, w')
    /\ events w'
       = rev (List.map (fun pair => Trained (fst pair) reward) game_history)
         ++ events w
    /\ writable w' = writable w.
Proof.
  revert w. induction game_history as [|[tensor side] rest IH]; intros w.
  - exists w. repeat apply conj; reflexivity.
  - cbn [train_on]. unfold bind at 1, train_step at 1.
    destruct (optimizer_step (model w) (optimizer w) tensor reward)
      as [parameters state].
    match goal with |- context [train_on rest reward ?w1] =>
      destruct (IH w1) as (w' & Hrun & Hev & Hwr) end.
    exists w'. repeat apply conj.
    + exact Hrun.
    + rewrite Hev. cbn [List.map rev fst events].
      rewrite <- app_assoc. reflexivity.
    + rewrite Hwr. reflexivity.
Qed.

(** A game that [self_play] returns has ended. *)
Lemma self_play_ends (fuel : nat) (board : Board)
  (game_history : list (list (list Q) * bool)) (w : World)
  (final : Board) (recorded : list (list (list Q) * bool)) (w' : World) :
  self_play fuel board game_history w = (Return (final, recorded), w') ->
  is_game_over final = true.
Proof.
  revert board game_history w.
  induction fuel as [|fuel IH]; intros board game_history w; cbn [self_play];
    destruct (is_game_over board) eqn:Hover;
    try (intros [= <- _ _]; exact Hover); try discriminate.
  intros Hrun.
  apply bind_Return_inv in Hrun. destruct Hrun as (u & w1 & _ & Hrun).
  apply bind_Return_inv in Hrun. destruct Hrun as (move & w2 & _ & Hrun).
  apply bind_Return_inv in Hrun. destruct Hrun as (tensor & w3 & _ & Hrun).
  eapply IH. exact Hrun.
Qed.

(** An iteration whose game raises is caught and logged, and the loop then
    goes on at once: the pause is part of the guarded block and is skipped. *)
Lemma loop_body_on_exception (fuel : nat) (w w1 : World) (e : exn) :
  play_game fuel w = (Raise e, w1) ->
  loop_body fuel w
  = (Return tt, add_events [Printed (ErrorInSelfTraining e)] w1).
Proof.
  intros Hrun. unfold loop_body, try_except, bind. rewrite Hrun. reflexivity.
Qed.

Lemma loop_body_on_success (fuel : nat) (w w1 : World) :
  play_game fuel w = (Return tt, w1) ->
  loop_body fuel w = (Return tt, add_events [Slept 1] w1).
Proof.
  intros Hrun. unfold loop_body, try_except, bind. rewrite Hrun. reflexivity.
Qed.

(** No exception leaves an iteration of the loop. *)
Lemma loop_body_never_raises (fuel : nat) (w : World) (e : exn) :
  fst (loop_body fuel w) <> Raise e.
Proof.
  unfold loop_body, try_except, bind.
  destruct (play_game fuel w) as [[[]|e'|] w1]; cbn; discriminate.
Qed.

End TrainerProperties.

(** ** Runs on the small instance *)

Section Runs.

Import Example.

Local Open Scope string_scope.

(** C1. On [root], White to move, depth 3: after move [a] Black can win a
    rook (value -5) or lose one (value 5), after move [b] the position is
    level (value 0). Under optimal adversarial play [a] is worth -5 and [b]
    is the best move. [get_move] scores [a] by the maximum over Black's
    replies, 5, and returns [a]: the role passed to [minimax] at the root is
    computed from the board after the move, so it is the role of the side
    that has just moved. *)
Theorem get_move_scores_reply_in_movers_role :
  fst (get_move root 2000 quiet_world) = Return (Some "a")
  /\ turn (make_move root 0) = negb (turn root)
  /\ full_minimax (model quiet_world) 2 (push (new_board root) 0)
       (negb (turn (current (push (new_board root) 0)))) = Fin 5
  /\ adversarial_value (model quiet_world) 3 (new_board root) 0 = Fin (-5)
  /\ adversarial_value (model quiet_world) 3 (new_board root) 1 = Fin 0
  /\ ~ best_for_mover (model quiet_world) 3 (new_board root) 0
  /\ best_for_mover (model quiet_world) 3 (new_board root) 1.
Proof.
  split; [vm_compute; reflexivity|].
  split; [vm_compute; reflexivity|].
  split; [vm_compute; reflexivity|].
  split; [vm_compute; reflexivity|].
  split; [vm_compute; reflexivity|].
  split.
  - intros Hbest. specialize (Hbest 1 (or_intror (or_introl eq_refl))).
    vm_compute in Hbest. discriminate.
  - intros other [<-|[<-|[]]]; vm_compute; reflexivity.
Qed.

(** C8. With a model file that cannot be written every game ends in an
    exception of [save_model]. Two iterations of the loop print the start
    line and the two errors and never pause; with a writable file each
    iteration ends with its pause. *)
Theorem loop_skips_cooldown_after_exception :
  fst (play_game 5 read_only_world) = Raise OSError
  /\ fst (loop 2 5 read_only_world) = Return tt
  /\ List.filter is_housekeeping (rev (events (snd (loop 2 5 read_only_world))))
     = [Printed SelfTrainingStarted;
        Printed (ErrorInSelfTraining OSError);
        Printed (ErrorInSelfTraining OSError)]
  /\ List.filter is_housekeeping (rev (events (snd (loop 2 5 quiet_world))))
     = [Printed SelfTrainingStarted;
        Printed ModelSaved; Printed (GameFinished "0-1"); Slept 1;
        Printed ModelSaved; Printed (GameFinished "0-1"); Slept 1].
Proof.
  split; [vm_compute; reflexivity|].
  split; [vm_compute; reflexivity|].
  split; vm_compute; reflexivity.
Qed.

Lemma minimax_evaluates_at_leaves_only_witness :
  (0 = 0 \/ is_game_over (new_board root) = true)
  /\ exists tensor,
       board_to_tensor (new_board root) = Return tensor
       /\ minimax 0 (new_board root) NegInf PosInf true quiet_world
          = (Return (Fin (forward (model quiet_world) tensor), new_board root),
             add_events [Evaluated (new_board root)] quiet_world).
Proof.
  split; [left; reflexivity|].
  apply (@minimax_evaluates_at_leaves_only tree_engine material_network
           0 (@new_board tree_engine root) NegInf PosInf true quiet_world).
  left. reflexivity.
Defined.

Lemma get_move_applies_tier_table_witness :
  legal_moves root <> []
  /\ exists move,
       legal_moves root !! 0 = Some move
       /\ get_move root 999 lucky_world
          = (Return (Some (uci move)),
             with_rng (advance (advance (rng lucky_world))) lucky_world).
Proof.
  split; [discriminate|].
  apply (@get_move_applies_tier_table tree_engine material_network
           root 999 lucky_world).
  discriminate.
Defined.

Lemma get_move_returns_legal_move_witness :
  legal_moves before_stuck <> []
  /\ root_loop 3 (legal_moves before_stuck) (new_board before_stuck) None
       NegInf quiet_world
     = (Return (None, new_board before_stuck), add_events [] quiet_world)
  /\ exists move,
       In move (legal_moves before_stuck)
       /\ legal_moves before_stuck
          !! (indexes (rng (add_events [] quiet_world))
                (cursor (rng (add_events [] quiet_world)))
              mod length (legal_moves before_stuck))
          = Some move
       /\ (NegInf = (if turn before_stuck then NegInf else PosInf) ->
           search_root (new_board before_stuck) (legal_moves before_stuck) 3
             quiet_world
           = (Return (Some (uci move)),
              with_rng (advance (rng (add_events [] quiet_world)))
                (add_events [] quiet_world))).
Proof.
  assert (Hne : legal_moves before_stuck <> []) by discriminate.
  assert (Hloop :
    root_loop 3 (legal_moves before_stuck) (new_board before_stuck) None
      NegInf quiet_world
    = (Return (None, new_board before_stuck), add_events [] quiet_world))
    by (vm_compute; reflexivity).
  split; [exact Hne|]. split; [exact Hloop|].
  exact (proj2 (proj2 (@get_move_returns_legal_move tree_engine
                         material_network before_stuck 2000 quiet_world))
           3 NegInf (add_events [] quiet_world) Hne Hloop).
Defined.

End Runs.

(** ** More on the search engine *)

Section SearchMore.

Context `{RulesEngine} `{Network}.

Lemma clamp_eq_cases (a b v f : score) :
  slt a b = true -> clamp a b v = clamp a b f ->
  (slt a f = true -> slt f b = true -> v = f)
  /\ (sle f a = true -> sle v a = true)
  /\ (sle b f = true -> sle b v = true).
Proof. intros. repeat apply conj; intros; score_cases. Qed.

(** X1. In any window with [alpha < beta] the search returns and its value
    stands to the window as the value of full minimax does: equal to it when
    that lies strictly inside, at most [alpha] when that is at most [alpha],
    at least [beta] when that is at least [beta]. *)
Theorem minimax_respects_window (depth : nat) (board : Board)
  (alpha beta : score) (maximizing_player : bool) (w : World) :
  slt alpha beta = true ->
  exists v w',
    minimax depth board alpha beta maximizing_player w = (Return (v, board), w')
    /\ (slt alpha (full_minimax (model w) depth board maximizing_player) = true ->
        slt (full_minimax (model w) depth board maximizing_player) beta = true ->
        v = full_minimax (model w) depth board maximizing_player)
    /\ (sle (full_minimax (model w) depth board maximizing_player) alpha = true ->
        sle v alpha = true)
    /\ (sle beta (full_minimax (model w) depth board maximizing_player) = true ->
        sle beta v = true).
Proof.
  intros Hab.
  destruct (minimax_ok depth board alpha beta maximizing_player w)
    as (v & evs & Hrun & _ & Hval).
  exists v, (add_events evs w). split; [exact Hrun|].
  apply clamp_eq_cases; [exact Hab|exact (Hval Hab)].
Qed.

Lemma list_sum_step (x : nat) (l : list nat) :
  list_sum (x :: l) = x + list_sum l.
Proof. reflexivity. Qed.

Lemma max_loop_cost (cost : Board -> nat)
  (rec : Board -> score -> score -> bool -> M (score * Board)) :
  search_cost cost rec ->
  forall moves board a b best w,
  exists v evs,
    max_loop rec moves board a b best w = (Return (v, board), add_events evs w)
    /\ length evs
       <= list_sum (List.map (fun move => cost (push board move)) moves).
Proof.
  intros Hrec moves. induction moves as [|m rest IH]; intros board a b best w.
  - exists best, []. rewrite add_events_nil. split; [reflexivity|simpl; lia].
  - destruct (Hrec (push board m) a b false w) as (e & evs1 & Hrun & Hlen).
    cbn [max_loop]. unfold bind at 1. rewrite Hrun.
    unfold bind at 1, lift at 1. rewrite pop_push.
    cbn [List.map]. rewrite list_sum_step.
    destruct (sle b (smax a e)).
    + exists (smax best e), evs1. split; [reflexivity|lia].
    + destruct (IH board (smax a e) b (smax best e) (add_events evs1 w))
        as (v & evs2 & Hrun2 & Hlen2).
      exists v, (evs2 ++ evs1). rewrite Hrun2, add_events_app.
      split; [reflexivity|]. rewrite length_app. lia.
Qed.

Lemma min_loop_cost (cost : Board -> nat)
  (rec : Board -> score -> score -> bool -> M (score * Board)) :
  search_cost cost rec ->
  forall moves board a b best w,
  exists v evs,
    min_loop rec moves board a b best w = (Return (v, board), add_events evs w)
    /\ length evs
       <= list_sum (List.map (fun move => cost (push board move)) moves).
Proof.
  intros Hrec moves. induction moves as [|m rest IH]; intros board a b best w.
  - exists best, []. rewrite add_events_nil. split; [reflexivity|simpl; lia].
  - destruct (Hrec (push board m) a b true w) as (e & evs1 & Hrun & Hlen).
    cbn [min_loop]. unfold bind at 1. rewrite Hrun.
    unfold bind at 1, lift at 1. rewrite pop_push.
    cbn [List.map]. rewrite list_sum_step.
    destruct (sle (smin b e) a).
    + exists (smin best e), evs1. split; [reflexivity|lia].
    + destruct (IH board a (smin b e) (smin best e) (add_events evs1 w))
        as (v & evs2 & Hrun2 & Hlen2).
      exists v, (evs2 ++ evs1). rewrite Hrun2, add_events_app.
      split; [reflexivity|]. rewrite length_app. lia.
Qed.

Lemma minimax_cost (d : nat) : search_cost (leaf_count d) (minimax d).
Proof.
  induction d as [|d IH]; intros board alpha beta mx w.
  - exists (leaf_value (model w) board), [Evaluated board].
    cbn [minimax]. unfold bind. rewrite evaluate_run.
    split; [reflexivity|simpl; lia].
  - cbn [minimax leaf_count].
    destruct (is_game_over board) eqn:Hover.
    + exists (leaf_value (model w) board), [Evaluated board].
      unfold bind. rewrite evaluate_run. split; [reflexivity|simpl; lia].
    + destruct mx.
      * apply (max_loop_cost _ _ IH).
      * apply (min_loop_cost _ _ IH).
Qed.

(** X2. Whatever the window, a search makes at most as many evaluator calls
    as the game tree of its depth has leaves: pruning only ever saves
    evaluations. The events it adds are these calls and nothing else. *)
Theorem pruning_never_costs_more (depth : nat) (board : Board)
  (alpha beta : score) (maximizing_player : bool) (w : World) :
  exists v evs,
    minimax depth board alpha beta maximizing_player w
    = (Return (v, board), add_events evs w)
    /\ Forall is_evaluation evs
    /\ length evs <= leaf_count depth board.
Proof.
  destruct (minimax_cost depth board alpha beta maximizing_player w)
    as (v & evs & Hrun & Hlen).
  destruct (minimax_ok depth board alpha beta maximizing_player w)
    as (v' & evs' & Hrun' & Hleaf & _).
  assert (Hsame : evs' = evs).
  { rewrite Hrun in Hrun'. injection Hrun' as _ Hev.
    apply app_inv_tail in Hev. congruence. }
  subst evs'. exists v, evs. repeat apply conj.
  - exact Hrun.
  - eapply Forall_impl; [exact Hleaf|].
    intros x. apply leaf_event_is_evaluation.
  - exact Hlen.
Qed.

Lemma prefers_trans (white : bool) (a b c : score) :
  prefers white a b = true -> prefers white b c = true ->
  prefers white a c = true.
Proof. unfold prefers. destruct white; intros; score_cases. Qed.

Lemma prefers_after_not (white : bool) (a b c : score) :
  prefers white a b = false -> prefers white a c = true ->
  prefers white b c = true.
Proof. unfold prefers. destruct white; intros; score_cases. Qed.

Lemma root_pick_prefers (value_of : Move -> score) (white : bool)
  (moves : list Move) (best_move : option Move) (best_val : score) :
  root_pick value_of white moves best_move best_val
  = match moves with
    | [] => best_move
    | move :: rest =>
        if prefers white best_val (value_of move)
        then root_pick value_of white rest (Some move) (value_of move)
        else root_pick value_of white rest best_move best_val
    end.
Proof. destruct moves as [|m rest]; [reflexivity|]. destruct white; reflexivity. Qed.

(** What the root selection keeps: either nothing beat the starting value,
    or the first move among those with the value the side likes best. *)
Lemma root_pick_first_best (value_of : Move -> score) (white : bool)
  (moves : list Move) (best_move : option Move) (best_val : score) :
  (root_pick value_of white moves best_move best_val = best_move
   /\ forall other, In other moves ->
        prefers white best_val (value_of other) = false)
  \/ (exists before move after,
        moves = before ++ move :: after
        /\ root_pick value_of white moves best_move best_val = Some move
        /\ prefers white best_val (value_of move) = true
        /\ (forall other, In other before ->
              prefers white (value_of other) (value_of move) = true)
        /\ (forall other, In other after ->
              prefers white (value_of move) (value_of other) = false)).
Proof.
  revert best_move best_val.
  induction moves as [|m rest IH]; intros best_move best_val.
  - left. split; [reflexivity|]. intros other [].
  - rewrite root_pick_prefers.
    destruct (prefers white best_val (value_of m)) eqn:Hm.
    + right. destruct (IH (Some m) (value_of m))
        as [[Hkeep Hrest]|(before & move & after & -> & Hpick & Hbeat & Hb & Ha)].
      * exists [], m, rest. repeat apply conj;
          [reflexivity|exact Hkeep|exact Hm| |exact Hrest].
        intros other [].
      * exists (m :: before), move, after. repeat apply conj;
          [reflexivity|exact Hpick| | |exact Ha].
        -- eapply prefers_trans; eassumption.
        -- intros other [<-|Hin]; [exact Hbeat|apply Hb; exact Hin].
    + destruct (IH best_move best_val)
        as [[Hkeep Hrest]|(before & move & after & -> & Hpick & Hbeat & Hb & Ha)].
      * left. split; [exact Hkeep|].
        intros other [<-|Hin]; [exact Hm|apply Hrest; exact Hin].
      * right. exists (m :: before), move, after. repeat apply conj;
          [reflexivity|exact Hpick|exact Hbeat| |exact Ha].
        intros other [<-|Hin]; [|apply Hb; exact Hin].
        eapply prefers_after_not; eassumption.
Qed.

(** When the root selection keeps a move that is a true value, the search
    path returns it and draws no random number. *)
Lemma search_root_found (board : Board) (legal : list Move) (depth : nat)
  (w : World) (move : Move) :
  root_pick (root_value (model w) depth board) (turn (current board)) legal
    None (if turn (current board) then NegInf else PosInf) = Some move ->
  move_bool move = true ->
  exists evs,
    search_root board legal depth w
    = (Return (Some (uci move)), add_events evs w)
    /\ Forall is_evaluation evs.
Proof.
  intros Hpick Htrue. unfold search_root.
  destruct (root_loop_ok depth legal board None
              (if turn (current board) then NegInf else PosInf) w)
    as (evs & Hrun & Hev).
  unfold bind at 1. rewrite Hrun.
  change (root_pick _ (turn (current board)) legal None
            (if turn (current board) then NegInf else PosInf))
    with (root_pick (root_value (model w) depth board) (turn (current board))
            legal None (if turn (current board) then NegInf else PosInf)).
  rewrite Hpick, Htrue. exists evs. split; [reflexivity|exact Hev].
Qed.

Lemma prefers_from_infinity (white : bool) (x : Z) :
  prefers white (if white then NegInf else PosInf) (Fin x) = true.
Proof. destruct white; reflexivity. Qed.

Lemma search_root_first_best (board : Board) (legal : list Move)
  (depth : nat) (w : World) :
  legal <> [] ->
  (forall move, In move legal ->
     move_bool move = true
     /\ exists x, root_value (model w) depth board move = Fin x) ->
  exists before move after evs,
    legal = before ++ move :: after
    /\ root_pick (root_value (model w) depth board) (turn (current board))
         legal None (if turn (current board) then NegInf else PosInf)
       = Some move
    /\ search_root board legal depth w
       = (Return (Some (uci move)), add_events evs w)
    /\ Forall is_evaluation evs
    /\ (forall other, In other before ->
          prefers (turn (current board))
            (root_value (model w) depth board other)
            (root_value (model w) depth board move) = true)
    /\ (forall other, In other after ->
          prefers (turn (current board))
            (root_value (model w) depth board move)
            (root_value (model w) depth board other) = false).
Proof.
  intros Hne Hmoves.
  destruct (root_pick_first_best (root_value (model w) depth board)
              (turn (current board)) legal None
              (if turn (current board) then NegInf else PosInf))
    as [[_ Hnone]|(before & move & after & Hsplit & Hpick & _ & Hb & Ha)].
  - destruct legal as [|m rest]; [congruence|].
    destruct (Hmoves m (or_introl eq_refl)) as (_ & x & Hx).
    specialize (Hnone m (or_introl eq_refl)).
    rewrite Hx, prefers_from_infinity in Hnone. discriminate.
  - assert (Hin : In move legal).
    { rewrite Hsplit. apply in_or_app. right. left. reflexivity. }
    destruct (Hmoves move Hin) as (Htrue & _).
    destruct (search_root_found board legal depth w move Hpick Htrue)
      as (evs & Hrun & Hev).
    exists before, move, after, evs.
    repeat apply conj; assumption.
Qed.

(** X3. When every root candidate has a finite value and the legal moves are
    true values, the search path of [get_move] returns the first move among
    those whose value the side to move likes best: every earlier move is
    strictly worse for it, no later move is better. It draws no random
    number. The value of a candidate is [root_value]. *)
Theorem search_root_returns_first_best (board : Board) (legal : list Move)
  (depth : nat) (w : World) :
  legal <> [] ->
  (forall move, In move legal ->
     move_bool move = true
     /\ exists x, root_value (model w) depth board move = Fin x) ->
  exists before move after w',
    legal = before ++ move :: after
    /\ search_root board legal depth w = (Return (Some (uci move)), w')
    /\ rng w' = rng w
    /\ (forall other, In other before ->
          prefers (turn (current board))
            (root_value (model w) depth board other)
            (root_value (model w) depth board move) = true)
    /\ (forall other, In other after ->
          prefers (turn (current board))
            (root_value (model w) depth board move)
            (root_value (model w) depth board other) = false).
Proof.
  intros Hne Hmoves.
  destruct (search_root_first_best board legal depth w Hne Hmoves)
    as (before & move & after & evs & Hsplit & _ & Hrun & _ & Hb & Ha).
  exists before, move, after, (add_events evs w).
  repeat apply conj; [exact Hsplit|exact Hrun|reflexivity|exact Hb|exact Ha].
Qed.




Lemma fold_smax_finite {A} (g : A -> score) (l : list A) (x : Z) :
  (forall a, In a l -> exists y, g a = Fin y) ->
  exists y, fold_left (fun best a => smax best (g a)) l (Fin x) = Fin y.
Proof.
  revert x. induction l as [|a l IH]; intros x Hfin; simpl.
  - eauto.
  - destruct (Hfin a (or_introl eq_refl)) as (y & ->).
    rewrite smax_Fin. apply IH. intros b Hb. apply Hfin. right. exact Hb.
Qed.

Lemma fold_smin_finite {A} (g : A -> score) (l : list A) (x : Z) :
  (forall a, In a l -> exists y, g a = Fin y) ->
  exists y, fold_left (fun best a => smin best (g a)) l (Fin x) = Fin y.
Proof.
  revert x. induction l as [|a l IH]; intros x Hfin; simpl.
  - eauto.
  - destruct (Hfin a (or_introl eq_refl)) as (y & ->).
    rewrite smin_Fin. apply IH. intros b Hb. apply Hfin. right. exact Hb.
Qed.

(** Under the rules engine's contract on termination full minimax is the
    evaluator's value of some leaf, never an infinity. *)
Lemma full_minimax_finite (parameters : Params) (depth : nat) (board : Board)
  (maximizing : bool) :
  no_dead_end ->
  exists x, full_minimax parameters depth board maximizing = Fin x.
Proof.
  intros Hrules. revert board maximizing.
  induction depth as [|d IH]; intros board maximizing; cbn [full_minimax].
  - eexists. reflexivity.
  - destruct (is_game_over board) eqn:Hover; [eexists; reflexivity|].
    pose proof (Hrules board Hover) as Hne.
    destruct (legal_moves (current board)) as [|m rest]; [congruence|].
    destruct maximizing; cbn [fold_left].
    + destruct (IH (push board m) false) as (x & ->). rewrite smax_NegInf.
      apply fold_smax_finite. intros a _. apply IH.
    + destruct (IH (push board m) true) as (x & ->). rewrite smin_PosInf.
      apply fold_smin_finite. intros a _. apply IH.
Qed.

(** X5. When every legal move at the root is a true value and has a finite
    value (the evaluator yields numbers, and no line of play below the move
    stops at a board that is not over yet has no move), a request rated
    1800 or more is answered from the position and the parameters of the
    network alone: two worlds with the same parameters give the same answer
    whatever their random state, events and files, and the random state is
    left untouched. Without a finite value for some move the fallback of
    [get_move] can draw a random move; the statement does not cover this. *)
Theorem high_tier_answer_depends_on_model_only (fen : Position) (rating : Z)
  (w1 w2 : World) :
  (forall move, In move (legal_moves fen) ->
     move_bool move = true
     /\ exists x, root_value (model w1) 3 (new_board fen) move = Fin x) ->
  (1800 <= rating)%Z ->
  model w1 = model w2 ->
  fst (get_move fen rating w1) = fst (get_move fen rating w2)
  /\ rng (snd (get_move fen rating w1)) = rng w1.
Proof.
  intros Hfin Hr Hmodel.
  unfold get_move. cbn [new_board current].
  destruct (legal_moves fen) as [|m0 rest] eqn:Hlegal.
  - split; reflexivity.
  - destruct (Z.ltb_spec rating 1000); [lia|].
    destruct (Z.ltb_spec rating 1800); [lia|].
    assert (Hne : m0 :: rest <> []) by discriminate.
    try rewrite Hlegal in Hfin.
    assert (Hfin2 : forall move, In move (m0 :: rest) ->
      move_bool move = true
      /\ exists x, root_value (model w2) 3 (new_board fen) move = Fin x)
      by (rewrite <- Hmodel; exact Hfin).
    destruct (search_root_first_best (new_board fen) (m0 :: rest) 3 w1 Hne
                Hfin)
      as (b1 & mv1 & a1 & evs1 & _ & Hpick1 & Hrun1 & _).
    destruct (search_root_first_best (new_board fen) (m0 :: rest) 3 w2 Hne
                Hfin2)
      as (b2 & mv2 & a2 & evs2 & _ & Hpick2 & Hrun2 & _).
    rewrite Hrun1, Hrun2. cbn [fst snd]. rewrite Hmodel in Hpick1.
    split; [|reflexivity]. congruence.
Qed.

End SearchMore.

(** ** More on the encoder *)

Section EncoderMore.

Context `{RulesEngine}.

Lemma slot_inj (square : nat) (p q : Piece) :
  slot square p = slot square q -> p = q.
Proof.
  destruct p as [t c], q as [t' c']. unfold slot. cbn [piece_type color].
  destruct t, t', c, c'; cbn [piece_type_rank]; intros Heq;
    try reflexivity; exfalso; lia.
Qed.

Lemma placement_from_encoding (b1 b2 : Board) (square : nat) (p : Piece) :
  square < 64 ->
  encoding b1 = encoding b2 ->
  piece_at (current b1) square = Some p ->
  piece_at (current b2) square = Some p.
Proof.
  intros Hsq Heq Hp.
  assert (Hone : encoding b2 !! slot square p = Some 1%Q).
  { rewrite <- Heq, lookup_encoding by (apply slot_lt; exact Hsq).
    rewrite encoded_entry_slot by exact Hp. reflexivity. }
  rewrite lookup_encoding in Hone by (apply slot_lt; exact Hsq).
  injection Hone as Hone. unfold encoded_entry in Hone.
  rewrite slot_div in Hone.
  destruct (piece_at (current b2) square) as [q|]; [|discriminate].
  destruct (Nat.eqb_spec (slot square q) (slot square p)) as [Hslot|];
    [|discriminate].
  apply slot_inj in Hslot. congruence.
Qed.

Lemma Return_singleton_inj {A} (x y : A) :
  @Return (list A) [x] = Return [y] -> x = y.
Proof. intros Heq. inversion Heq. reflexivity. Qed.

(** X6. The encoding loses nothing of the piece placement: two boards with
    the same encoded position hold the same piece, or none, on each of the
    64 squares. *)
Theorem board_to_tensor_determines_placement (b1 b2 : Board) (square : nat) :
  board_to_tensor b1 = board_to_tensor b2 ->
  square < 64 ->
  piece_at (current b1) square = piece_at (current b2) square.
Proof.
  rewrite !board_to_tensor_total. intros Heq Hsq.
  apply Return_singleton_inj in Heq.
  destruct (piece_at (current b1) square) as [p|] eqn:Hp1.
  - symmetry. eapply placement_from_encoding; eauto.
  - destruct (piece_at (current b2) square) as [q|] eqn:Hp2; [|reflexivity].
    rewrite (placement_from_encoding b2 b1 square q Hsq (eq_sym Heq) Hp2) in Hp1.
    discriminate.
Qed.

End EncoderMore.

(** ** More on the trainer *)

Section TrainerMore.

Context `{RulesEngine} `{Network}.

Lemma bind_serves {A B} (c : M A) (k : A -> M B) :
  (forall w r w1, c w = (r, w1) -> serves w w1) ->
  (forall a w r w1, k a w = (r, w1) -> serves w w1) ->
  forall w r w', bind c k w = (r, w') -> serves w w'.
Proof.
  intros Hc Hk w r w'. unfold bind.
  destruct (c w) as [[a|e|] w1] eqn:Hrun; pose proof (Hc _ _ _ Hrun) as H1.
  - intros Hrest. eapply serves_trans; [exact H1|eapply Hk; exact Hrest].
  - intros [= <- <-]. exact H1.
  - intros [= <- <-]. exact H1.
Qed.

Lemma random_random_serves (w : World) (r : outcome Q) (w' : World) :
  random_random w = (r, w') -> serves w w'.
Proof. unfold random_random. intros [= <- <-]. apply serves_with_rng. Qed.

Lemma random_choice_serves {A} (seq : list A) (w : World) (r : outcome A)
  (w' : World) :
  random_choice seq w = (r, w') -> serves w w'.
Proof.
  unfold random_choice. destruct seq as [|a seq].
  - intros [= <- <-]. apply serves_refl.
  - destruct (_ !! _); intros [= <- <-];
      [apply serves_with_rng|apply serves_refl].
Qed.

Lemma lift_serves {A} (o : outcome A) (w : World) (r : outcome A) (w' : World) :
  lift o w = (r, w') -> serves w w'.
Proof. unfold lift. intros [= <- <-]. apply serves_refl. Qed.

Lemma get_move_serves (fen : Position) (target_elo : Z) (w : World)
  (r : outcome (option string)) (w' : World) :
  get_move fen target_elo w = (r, w') -> serves w w'.
Proof.
  destruct (get_move_ok fen target_elo w) as (r0 & w0 & Hrun & Hserve & _).
  rewrite Hrun. intros [= <- <-]. exact Hserve.
Qed.

(** Choosing the move of a self-play step only serves the world. *)
Lemma choose_move_serves (explore : bool) (board : Board) (w : World)
  (r : outcome Move) (w' : World) :
  (if explore then random_choice (legal_moves (current board))
   else
     move_str <- get_move (current board) 2000 ;;
     lift (move_from_uci move_str)) w = (r, w') ->
  serves w w'.
Proof.
  destruct explore.
  - apply random_choice_serves.
  - apply bind_serves.
    + intros w0 r0 w1. apply get_move_serves.
    + intros a w0 r0 w1. apply lift_serves.
Qed.

(** Playing the moves of a game, however it ends, only serves the world: no
    training step, no file written, no line printed. *)
Lemma self_play_serves (fuel : nat) (board : Board)
  (game_history : list (list (list Q) * bool)) (w : World)
  (r : outcome (Board * list (list (list Q) * bool))) (w' : World) :
  self_play fuel board game_history w = (r, w') -> serves w w'.
Proof.
  revert board game_history w r w'.
  induction fuel as [|fuel IH]; intros board game_history w r w';
    cbn [self_play]; destruct (is_game_over board).
  - intros [= <- <-]. apply serves_refl.
  - apply lift_serves.
  - intros [= <- <-]. apply serves_refl.
  - apply bind_serves; [intros w0 r0 w1; apply random_random_serves|].
    intros u. apply bind_serves;
      [intros w0 r0 w1; apply choose_move_serves|].
    intros move. apply bind_serves;
      [intros w0 r0 w1; apply lift_serves|].
    intros tensor w0 r0 w1. apply IH.
Qed.

(** One step of a game that goes on: the draw, the move, the encoding. *)
Lemma self_play_step (fuel : nat) (board : Board)
  (game_history : list (list (list Q) * bool)) (w : World)
  (final : Board) (recorded : list (list (list Q) * bool)) (w' : World) :
  is_game_over board = false ->
  self_play (S fuel) board game_history w = (Return (final, recorded), w') ->
  exists (explore : bool) (move : Move) (w1 w2 : World),
    (if explore then random_choice (legal_moves (current board))
     else
       move_str <- get_move (current board) 2000 ;;
       lift (move_from_uci move_str)) w1 = (Return move, w2)
    /\ self_play fuel (push board move)
         (game_history ++ [trace_entry (current board)]) w2
       = (Return (final, recorded), w').
Proof.
  intros Hover Hrun. cbn [self_play] in Hrun. rewrite Hover in Hrun.
  apply bind_Return_inv in Hrun. destruct Hrun as (u & w1 & _ & Hrun).
  apply bind_Return_inv in Hrun. destruct Hrun as (move & w2 & Hmove & Hrun).
  apply bind_Return_inv in Hrun. destruct Hrun as (tensor & w3 & Htensor & Hrun).
  unfold lift in Htensor. rewrite board_to_tensor_total in Htensor.
  injection Htensor as <- <-.
  exists (negb (Qle_bool (1 # 10) u)), move, w1, w2.
  split; [exact Hmove|exact Hrun].
Qed.


Lemma chosen_move_legal (explore : bool) (board : Board) (w w' : World)
  (move : Move) :
  moves_round_trip ->
  (if explore then random_choice (legal_moves (current board))
   else
     move_str <- get_move (current board) 2000 ;;
     lift (move_from_uci move_str)) w = (Return move, w') ->
  In move (legal_moves (current board)).
Proof.
  intros Htrip. destruct explore.
  - destruct (legal_moves (current board)) as [|m0 rest] eqn:Hlegal;
      [discriminate|].
    destruct (random_choice_run (m0 :: rest) w) as (a & Hlook & Hrun);
      [discriminate|].
    rewrite Hrun. intros [= <- _].
    apply list_elem_of_In. eapply list_elem_of_lookup_2. exact Hlook.
  - intros Hrun. apply bind_Return_inv in Hrun.
    destruct Hrun as (text & w1 & Hget & Hparse).
    destruct (get_move_ok (current board) 2000 w) as (r0 & w0 & Hrun0 & _ & Hr0).
    rewrite Hrun0 in Hget. injection Hget as -> _.
    destruct text as [text|]; [|discriminate].
    destruct Hr0 as (m & Hin & ->).
    destruct (Htrip _ _ Hin) as (_ & Hback).
    unfold lift, move_from_uci in Hparse. rewrite Hback in Hparse.
    injection Hparse as <- _. exact Hin.
Qed.

Lemma chosen_move_no_exception (explore : bool) (board : Board) (w : World)
  (e : exn) :
  moves_round_trip ->
  legal_moves (current board) <> [] ->
  fst ((if explore then random_choice (legal_moves (current board))
        else
          move_str <- get_move (current board) 2000 ;;
          lift (move_from_uci move_str)) w) <> Raise e.
Proof.
  intros Htrip Hne. destruct explore.
  - destruct (random_choice_run (legal_moves (current board)) w Hne)
      as (a & _ & Hrun).
    rewrite Hrun. discriminate.
  - destruct (get_move_ok (current board) 2000 w) as (r0 & w0 & Hrun0 & _ & Hr0).
    unfold bind. rewrite Hrun0.
    destruct r0 as [text|]; [|contradiction].
    destruct Hr0 as (m & Hin & ->).
    destruct (Htrip _ _ Hin) as (_ & Hback).
    unfold lift, move_from_uci. rewrite Hback. discriminate.
Qed.

Lemma self_play_no_exception (fuel : nat) (board : Board)
  (game_history : list (list (list Q) * bool)) (w : World) (e : exn) :
  no_dead_end -> moves_round_trip ->
  fst (self_play fuel board game_history w) <> Raise e.
Proof.
  intros Hrules Htrip. revert board game_history w.
  induction fuel as [|fuel IH]; intros board game_history w; cbn [self_play];
    destruct (is_game_over board) eqn:Hover; try discriminate.
  unfold bind at 1, random_random at 1.
  unfold bind at 1.
  pose proof (chosen_move_no_exception
                (negb (Qle_bool (1 # 10) (floats (rng w) (cursor (rng w)))))
                board (with_rng (advance (rng w)) w) e Htrip
                (Hrules board Hover)) as Hmove.
  destruct ((if negb (Qle_bool (1 # 10) (floats (rng w) (cursor (rng w))))
             then random_choice (legal_moves (current board))
             else
               move_str <- get_move (current board) 2000 ;;
               lift (move_from_uci move_str))
              (with_rng (advance (rng w)) w)) as [[move|e'|] w2].
  - unfold bind at 1, lift at 1. rewrite board_to_tensor_total. apply IH.
  - cbn [fst] in *. congruence.
  - discriminate.
Qed.

Lemma after_training_step (reward : Q) (x : list (list Q)) (side : bool)
  (rest : list (list (list Q) * bool)) (state : Params * OptState) :
  after_training reward ((x, side) :: rest) state
  = after_training reward rest
      (optimizer_step (fst state) (snd state) x reward).
Proof. reflexivity. Qed.

(** The training loop leaves the parameters and the optimizer where its
    steps, taken in order, lead; it touches neither the file nor the random
    state. *)
Lemma train_on_state (game_history : list (list (list Q) * bool)) (reward : Q)
  (w : World) :
  exists w',
    train_on game_history reward w = (Return tt, w')
    /\ (model w', optimizer w')
       = after_training reward game_history (model w, optimizer w)
    /\ disk w' = disk w
    /\ writable w' = writable w
    /\ rng w' = rng w.
Proof.
  revert w. induction game_history as [|[tensor side] rest IH]; intros w.
  - exists w. repeat apply conj; reflexivity.
  - cbn [train_on]. unfold bind at 1, train_step at 1.
    rewrite after_training_step. cbn [fst snd].
    destruct (optimizer_step (model w) (optimizer w) tensor reward)
      as [parameters state] eqn:Hstep.
    match goal with |- context [train_on rest reward ?w1] =>
      destruct (IH w1) as (w' & Hrun & Hstate & Hdisk & Hwr & Hrng) end.
    exists w'. repeat apply conj; assumption.
Qed.

(** C7. When the moves of a self-play game have been played to the end and
    left the trace [game_history], the reward is 1 if the result is ["1-0"],
    -1 if it is ["0-1"] and 0 for every other result, and [play_game] then
    trains before anything else: the training loop returns after exactly
    one [train_step] for each recorded pair, in the order recorded and
    whatever the side to move of the pair, each with this reward as its
    target; the parameters and the optimizer are then the ones that these
    optimizer steps, taken in this order from the state before the game,
    lead to; and what is left of [play_game] is to save and print from
    there, so the training has been done also when the save raises. *)
Theorem play_game_trains_every_pair (fuel : nat) (w w1 : World)
  (board : Board) (game_history : list (list (list Q) * bool)) :
  self_play fuel (new_board starting_position) [] w
  = (Return (board, game_history), w1) ->
  is_game_over board = true
  /\ (result board = "1-0"%string -> reward_for (result board) = 1%Q)
  /\ (result board = "0-1"%string -> reward_for (result board) = (-1)%Q)
  /\ (result board <> "1-0"%string -> result board <> "0-1"%string ->
      reward_for (result board) = 0%Q)
  /\ exists w2,
       train_on game_history (reward_for (result board)) w1 = (Return tt, w2)
       /\ events w2
          = rev (List.map
                   (fun pair => Trained (fst pair) (reward_for (result board)))
                   game_history)
            ++ events w1
       /\ (model w2, optimizer w2)
          = fold_left
              (fun state pair =>
                 optimizer_step (fst state) (snd state) (fst pair)
                   (reward_for (result board)))
              game_history (model w, optimizer w)
       /\ play_game fuel w
          = (run save_model ;; print (GameFinished (result board))) w2.
Proof.
  intros Hplay.
  split; [eapply self_play_ends; exact Hplay|].
  split; [intros ->; reflexivity|].
  split; [intros ->; reflexivity|].
  split.
  - intros H1 H2. unfold reward_for.
    destruct (String.eqb_spec (result board) "1-0"); [contradiction|].
    destruct (String.eqb_spec (result board) "0-1"); [contradiction|].
    reflexivity.
  - destruct (self_play_serves _ _ _ _ _ _ Hplay) as (Hm & Ho & _).
    destruct (train_on_state game_history (reward_for (result board)) w1)
      as (w2 & Htrain & Hstate & _).
    destruct (train_on_run game_history (reward_for (result board)) w1)
      as (w2' & Htrain' & Hev & _).
    rewrite Htrain in Htrain'. injection Htrain' as <-.
    exists w2. split; [exact Htrain|]. split; [exact Hev|]. split.
    + rewrite Hm, Ho in Hstate. exact Hstate.
    + unfold play_game, bind. rewrite Hplay, Htrain. reflexivity.
Qed.


(** X8. When the text form of a legal move reads back as that move, a game
    of self-play only makes legal moves: if the board it starts from came
    about by legal moves, so did the board it ends with. *)
Theorem self_play_makes_legal_moves (fuel : nat) (board : Board)
  (game_history : list (list (list Q) * bool)) (w : World)
  (final : Board) (recorded : list (list (list Q) * bool)) (w' : World) :
  moves_round_trip ->
  self_play fuel board game_history w = (Return (final, recorded), w') ->
  legal_line (current board) (stack board) ->
  legal_line (current final) (stack final).
Proof.
  intros Htrip. revert board game_history w.
  induction fuel as [|fuel IH]; intros board game_history w Hrun Hline.
  - cbn [self_play] in Hrun. destruct (is_game_over board); [|discriminate].
    injection Hrun as <- _ _. exact Hline.
  - destruct (is_game_over board) eqn:Hover.
    + cbn [self_play] in Hrun. rewrite Hover in Hrun.
      injection Hrun as <- _ _. exact Hline.
    + apply self_play_step in Hrun; [|exact Hover].
      destruct Hrun as (explore & move & w1 & w2 & Hmove & Hrun).
      apply chosen_move_legal in Hmove; [|exact Htrip].
      eapply IH; [exact Hrun|].
      cbn [push current stack legal_line]. split; [|exact Hline].
      exists move. split; [exact Hmove|reflexivity].
Qed.

(** X9. After a finished game the parameters and the optimizer are those
    reached from the ones before the game by the training steps of the
    trace, in order (playing the moves trains nothing), and the model file
    holds these parameters. *)
Theorem play_game_persists_training (fuel : nat) (w w' : World) :
  play_game fuel w = (Return tt, w') ->
  exists board game_history w1,
    self_play fuel (new_board starting_position) [] w
    = (Return (board, game_history), w1)
    /\ (model w', optimizer w')
       = after_training (reward_for (result board)) game_history
           (model w, optimizer w)
    /\ disk w' = Some (model w').
Proof.
  unfold play_game. intros Hrun.
  apply bind_Return_inv in Hrun.
  destruct Hrun as ([board game_history] & w1 & Hplay & Hrun).
  exists board, game_history, w1. split; [exact Hplay|].
  destruct (self_play_serves _ _ _ _ _ _ Hplay) as (Hm & Ho & _).
  destruct (train_on_state game_history (reward_for (result board)) w1)
    as (w2 & Htrain & Hstate & _ & _ & _).
  unfold bind at 1 in Hrun. rewrite Htrain in Hrun.
  unfold bind at 1, save_model at 1 in Hrun.
  destruct (writable w2); [|discriminate].
  cbn in Hrun. injection Hrun as <-. cbn [model optimizer disk].
  rewrite Hm, Ho in Hstate. split; [exact Hstate|reflexivity].
Qed.

(** X11. Under the contracts of the rules engine (a board that is not over
    has a legal move; a legal move is a true value whose text reads back as
    the move) a self-play game raises nothing of its own: an exception that
    leaves [play_game] is one that [save_model] raised, after the moves were
    played to the end and the training loop had returned. *)
Theorem play_game_raises_only_on_save (fuel : nat) (w : World) (e : exn) :
  no_dead_end -> moves_round_trip ->
  fst (play_game fuel w) = Raise e ->
  exists board game_history w1 w2,
    self_play fuel (new_board starting_position) [] w
    = (Return (board, game_history), w1)
    /\ train_on game_history (reward_for (result board)) w1 = (Return tt, w2)
    /\ fst (save_model w2) = Raise e.
Proof.
  intros Hrules Htrip. unfold play_game, bind.
  destruct (self_play fuel (new_board starting_position) [] w)
    as [[[board game_history]|e'|] w1] eqn:Hplay.
  - destruct (train_on_state game_history (reward_for (result board)) w1)
      as (w2 & Htrain & _).
    rewrite Htrain. intros Hrun.
    exists board, game_history, w1, w2.
    split; [reflexivity|]. split; [exact Htrain|].
    destruct (save_model w2) as [[[]|e2|] w3]; cbn [fst] in *.
    + unfold print, emit in Hrun. discriminate.
    + exact Hrun.
    + discriminate.
  - pose proof (self_play_no_exception fuel (new_board starting_position) []
                  w e' Hrules Htrip) as Hno.
    rewrite Hplay in Hno. cbn [fst] in Hno. congruence.
  - cbn. discriminate.
Qed.

Lemma loop_iterations_never_raise (iterations fuel : nat) (w : World)
  (e : exn) :
  fst (loop_iterations iterations fuel w) <> Raise e.
Proof.
  revert w. induction iterations as [|n IH]; intros w; cbn [loop_iterations].
  - discriminate.
  - unfold bind.
    pose proof (loop_body_never_raises fuel w) as Hbody.
    destruct (loop_body fuel w) as [[[]|e'|] w1].
    + apply IH.
    + exfalso. exact (Hbody e' eq_refl).
    + discriminate.
Qed.

(** X12. No exception ever leaves the trainer loop, however many iterations
    it runs and whatever happens in its games: a run of the loop either
    completes its iterations or is still inside a game. *)
Theorem loop_never_raises (iterations fuel : nat) (w : World) :
  fst (loop iterations fuel w) = Return tt
  \/ fst (loop iterations fuel w) = OutOfFuel.
Proof.
  unfold loop, bind, print, emit.
  match goal with |- context [loop_iterations iterations fuel ?w1] =>
    pose proof (loop_iterations_never_raise iterations fuel w1) as Hno;
    destruct (loop_iterations iterations fuel w1) as [[[]|e|] w2]
  end.
  - left. reflexivity.
  - exfalso. exact (Hno e eq_refl).
  - right. reflexivity.
Qed.

End TrainerMore.

(** ** The trainer loop, line by line *)

Section LoopMore.

Context `{RulesEngine} `{Network}.

Lemma count_app (p : event -> bool) (l1 l2 : list event) :
  count p (l1 ++ l2) = count p l1 + count p l2.
Proof. unfold count. rewrite List.filter_app, length_app. reflexivity. Qed.

Lemma count_cons (p : event -> bool) (e : event) (l : list event) :
  count p (e :: l) = (if p e then 1 else 0) + count p l.
Proof. unfold count. cbn [List.filter]. destruct (p e); reflexivity. Qed.

Lemma count_evaluations (p : event -> bool) (evs : list event) :
  (forall board, p (Evaluated board) = false) ->
  Forall is_evaluation evs -> count p evs = 0.
Proof.
  intros Hp Hall. induction Hall as [|x l Hx _ IH]; [reflexivity|].
  destruct x; try contradiction. unfold count in *. cbn [List.filter].
  rewrite Hp. exact IH.
Qed.

Lemma count_trained (p : event -> bool) (reward : Q)
  (game_history : list (list (list Q) * bool)) :
  (forall x target, p (Trained x target) = false) ->
  count p (rev (List.map (fun pair => Trained (fst pair) reward) game_history))
  = 0.
Proof.
  intros Hp. induction game_history as [|a l IH]; [reflexivity|].
  cbn [List.map rev]. rewrite count_app, IH. unfold count.
  cbn [List.filter]. rewrite Hp. reflexivity.
Qed.

(** The lines of one game: a finished game prints its result once; a game
    never pauses and never prints an error. *)
Lemma play_game_lines (fuel : nat) (w : World) (r : outcome unit) (w' : World) :
  play_game fuel w = (r, w') ->
  exists evs,
    events w' = evs ++ events w
    /\ count is_pause evs = 0
    /\ count is_error_line evs = 0
    /\ count is_finished_line evs
       = match r with Return _ => 1 | _ => 0 end.
Proof.
  unfold play_game, bind.
  destruct (self_play fuel (new_board starting_position) [] w)
    as [[[board game_history]|e|] w1] eqn:Hplay;
    destruct (self_play_serves _ _ _ _ _ _ Hplay)
      as (_ & _ & _ & _ & evs & Hev & Hall).
  - destruct (train_on_run game_history (reward_for (result board)) w1)
      as (w2 & Htrain & Hev2 & _).
    rewrite Htrain. unfold save_model.
    destruct (writable w2).
    + cbn. intros [= <- <-]. cbn [events].
      exists (Printed (GameFinished (result board)) :: Printed ModelSaved
              :: Saved (model w2)
              :: rev (List.map
                        (fun pair =>
                           Trained (fst pair) (reward_for (result board)))
                        game_history)
              ++ evs).
      rewrite Hev2, Hev.
      split; [cbn [app]; rewrite <- app_assoc; reflexivity|].
      repeat apply conj;
        (rewrite !count_cons, count_app, count_trained, count_evaluations
           by (first [exact Hall | intros; reflexivity]);
         reflexivity).
    + intros [= <- <-]. rewrite Hev2, Hev.
      exists (rev (List.map
                     (fun pair => Trained (fst pair) (reward_for (result board)))
                     game_history) ++ evs).
      split; [rewrite <- app_assoc; reflexivity|].
      repeat apply conj;
        (rewrite count_app, count_trained, count_evaluations
           by (first [exact Hall | intros; reflexivity]);
         reflexivity).
  - intros [= <- <-]. exists evs. split; [exact Hev|].
    repeat apply conj; apply count_evaluations;
      first [exact Hall | intros; reflexivity].
  - intros [= <- <-]. exists evs. split; [exact Hev|].
    repeat apply conj; apply count_evaluations;
      first [exact Hall | intros; reflexivity].
Qed.

Lemma loop_body_lines (fuel : nat) (w w' : World) :
  loop_body fuel w = (Return tt, w') ->
  exists evs,
    events w' = evs ++ events w
    /\ count is_pause evs = count is_finished_line evs
    /\ count is_finished_line evs + count is_error_line evs = 1.
Proof.
  unfold loop_body, try_except, bind.
  destruct (play_game fuel w) as [[[]|e|] w1] eqn:Hgame;
    destruct (play_game_lines _ _ _ _ Hgame) as (evs & Hev & Hp & He & Hf).
  - cbn. intros [= <-]. cbn [events]. exists (Slept 1 :: evs).
    rewrite Hev. split; [reflexivity|].
    rewrite !count_cons, Hp, He, Hf. split; reflexivity.
  - cbn. intros [= <-]. cbn [events].
    exists (Printed (ErrorInSelfTraining e) :: evs).
    rewrite Hev. split; [reflexivity|].
    rewrite !count_cons, Hp, He, Hf. split; reflexivity.
  - discriminate.
Qed.

Lemma loop_iterations_lines (iterations fuel : nat) (w w' : World) :
  loop_iterations iterations fuel w = (Return tt, w') ->
  exists evs,
    events w' = evs ++ events w
    /\ count is_pause evs = count is_finished_line evs
    /\ count is_finished_line evs + count is_error_line evs = iterations.
Proof.
  revert w. induction iterations as [|n IH]; intros w; cbn [loop_iterations].
  - intros [= <-]. exists []. repeat apply conj; reflexivity.
  - intros Hrun. apply bind_Return_inv in Hrun.
    destruct Hrun as ([] & w1 & Hbody & Hrest).
    apply loop_body_lines in Hbody. destruct Hbody as (evs1 & Hev1 & Hp1 & Hn1).
    apply IH in Hrest. destruct Hrest as (evs2 & Hev2 & Hp2 & Hn2).
    exists (evs2 ++ evs1). rewrite Hev2, Hev1, app_assoc.
    split; [reflexivity|]. rewrite !count_app. lia.
Qed.

(** X13. Over any number of iterations that the loop completes, each
    iteration either finishes its game, prints the result and pauses once,
    or prints one error and does not pause: the pauses are as many as the
    results printed, and results and errors together as many as the
    iterations. *)
Theorem loop_pauses_once_per_finished_game (iterations fuel : nat)
  (w w' : World) :
  loop iterations fuel w = (Return tt, w') ->
  exists evs,
    events w' = evs ++ events w
    /\ count is_pause evs = count is_finished_line evs
    /\ count is_finished_line evs + count is_error_line evs = iterations.
Proof.
  unfold loop. intros Hrun. apply bind_Return_inv in Hrun.
  destruct Hrun as ([] & w1 & Hprint & Hrest).
  unfold print, emit in Hprint. injection Hprint as <-.
  apply loop_iterations_lines in Hrest.
  destruct Hrest as (evs & Hev & Hp & Hn). cbn [events] in Hev.
  exists (evs ++ [Printed SelfTrainingStarted]).
  rewrite Hev, <- app_assoc. split; [reflexivity|].
  rewrite !count_app. cbn. lia.
Qed.

End LoopMore.

(** ** Start-up and persistence *)

Section StartupProperties.

Context `{RulesEngine} `{Network}.

(** X14. An engine started after a successful [save_model], from a file that
    loads, runs with the parameters that were saved, whatever its fresh
    initialisation: it reports the model as loaded and evaluates every board
    as the engine that saved did. *)
Theorem restart_resumes_saved_model (w w1 : World) (fresh : Params)
  (adam : OptState) :
  save_model w = (Return tt, w1) ->
  exists w2,
    engine_init fresh adam true w1 = (Return ModelLoaded, w2)
    /\ model w2 = model w
    /\ optimizer w2 = adam
    /\ forall board, fst (evaluate board w2) = fst (evaluate board w).
Proof.
  unfold save_model. destruct (writable w); [|discriminate].
  unfold print, emit. intros [= <-].
  unfold engine_init, load_model. cbn [disk with_model].
  eexists. split; [reflexivity|].
  repeat apply conj; try reflexivity.
  intros board. rewrite !evaluate_run. reflexivity.
Qed.

(** X15. Starting an engine where there is no model file does not raise:
    the engine says that it found no model and runs with its fresh
    initialisation and a new optimizer, and no file is created. *)
Theorem restart_without_model_starts_fresh (w : World) (fresh : Params)
  (adam : OptState) (readable : bool) :
  disk w = None ->
  exists w2,
    engine_init fresh adam readable w = (Return NoExistingModel, w2)
    /\ model w2 = fresh
    /\ optimizer w2 = adam
    /\ disk w2 = None.
Proof.
  intros Hdisk. unfold engine_init, load_model. cbn [disk with_model].
  rewrite Hdisk. eexists. split; [reflexivity|]. cbn.
  repeat apply conj; try reflexivity. exact Hdisk.
Qed.

End StartupProperties.

(** ** The request handler *)

Section RequestProperties.

Context `{RulesEngine} `{Network} `{!RequestValues}.

(** X16. A request whose body has no [fen], or a [fen] that is a false value
    (null, empty text), is answered 400 "Missing FEN" with the world
    untouched: nothing is parsed, evaluated or drawn. *)
Theorem move_route_missing_fen (data : gmap string Json) (w : World) :
  match data !! "fen"%string with
  | None => True
  | Some fen => json_truth fen = false
  end ->
  move_route data w = (Return MissingFen, w) /\ status MissingFen = 400.
Proof.
  intros Hfen. unfold move_route.
  destruct (data !! "fen"%string) as [fen|]; [|split; reflexivity].
  rewrite Hfen. split; reflexivity.
Qed.

(** The handler always answers, and the engine is never the cause of a
    failure. *)
Lemma move_route_ok (data : gmap string Json) (w : World) :
  exists r w',
    move_route data w = (Return r, w')
    /\ serves w w'
    /\ (forall e, r <> Failed (EngineRaised e))
    /\ match r with
       | MoveFound move fen =>
           data !! "fen"%string = Some fen
           /\ json_truth fen = true
           /\ exists position,
                json_board fen = Some position
                /\ match move with
                   | None => legal_moves position = []
                   | Some text =>
                       exists m, In m (legal_moves position) /\ text = uci m
                   end
       | MissingFen =>
           match data !! "fen"%string with
           | None => True
           | Some fen => json_truth fen = false
           end
       | Failed cause =>
           w' = w
           /\ exists fen,
                data !! "fen"%string = Some fen
                /\ json_truth fen = true
                /\ (cause = BadRating \/ json_board fen = None)
       end.
Proof.
  unfold move_route.
  destruct (data !! "fen"%string) as [fen|] eqn:Hfen.
  2: { exists MissingFen, w. split; [reflexivity|].
       split; [apply serves_refl|]. split; [intros e; discriminate|exact I]. }
  destruct (json_truth fen) eqn:Htruth; cbn [negb].
  2: { exists MissingFen, w. split; [reflexivity|].
       split; [apply serves_refl|].
       split; [intros e; discriminate|reflexivity]. }
  destruct (match data !! "elo"%string with
            | Some value => json_int value
            | None => Some 1500%Z
            end) as [rating|].
  2: { exists (Failed BadRating), w. split; [reflexivity|].
       split; [apply serves_refl|]. split; [intros e; discriminate|].
       split; [reflexivity|]. exists fen.
       split; [reflexivity|]. split; [exact Htruth|]. left. reflexivity. }
  destruct (json_board fen) as [position|] eqn:Hboard.
  2: { exists (Failed BadPosition), w. split; [reflexivity|].
       split; [apply serves_refl|]. split; [intros e; discriminate|].
       split; [reflexivity|]. exists fen.
       split; [reflexivity|]. split; [exact Htruth|]. right. exact Hboard. }
  destruct (get_move_ok position rating w) as (r & w' & Hrun & Hserve & Hr).
  exists (MoveFound r fen), w'. unfold try_except, bind. rewrite Hrun.
  split; [reflexivity|]. split; [exact Hserve|].
  split; [intros e; discriminate|].
  split; [reflexivity|]. split; [exact Htruth|].
  exists position. split; [exact Hboard|exact Hr].
Qed.

(** X17. The handler answers every request whose body is a JSON object, and
    raises on no such request. Its status is then 200, 400 or 500; serving
    leaves the parameters of the network and the optimizer unchanged; and a
    failure is never due to the engine: a request that fails (500) had a
    [fen] that does not denote a position or a rating that is not a number,
    and left the world untouched. A body that is another JSON value is not
    answered: the handler raises [AttributeError], with the world
    untouched. *)
Theorem move_request_answers_json_objects (body : request_json) (w : World) :
  match body with
  | JsonObject data =>
      exists r w',
        move_request body w = (Return r, w')
        /\ (status r = 200 \/ status r = 400 \/ status r = 500)
        /\ model w' = model w
        /\ optimizer w' = optimizer w
        /\ (forall cause, r = Failed cause ->
              w' = w
              /\ (cause = BadRating
                  \/ cause = BadPosition
                     /\ exists fen,
                          data !! "fen"%string = Some fen
                          /\ json_board fen = None))
  | JsonOther => move_request body w = (Raise AttributeError, w)
  end.
Proof.
  destruct body as [data|]; [|reflexivity]. cbn [move_request].
  destruct (move_route_ok data w)
    as (r & w' & Hrun & (Hm & Ho & _) & Hengine & Hr).
  exists r, w'. split; [exact Hrun|].
  split; [destruct r; cbn; auto|]. split; [exact Hm|]. split; [exact Ho|].
  intros cause ->. destruct Hr as (Hw & fen & Hfen & _ & Hcase).
  split; [exact Hw|].
  destruct Hcase as [->|Hboard]; [left; reflexivity|].
  destruct cause as [| |e]; [left; reflexivity| |].
  - right. split; [reflexivity|]. exists fen. split; assumption.
  - exfalso. exact (Hengine e eq_refl).
Qed.

(** X18. A request with a true [fen] that denotes a position and a rating
    that is a number (or none) is answered 200 with the [fen] echoed and
    with a legal move of the position in text form, or with no move exactly
    when the position has no legal move. *)
Theorem move_route_success (data : gmap string Json) (w : World)
  (fen : Json) (position : Position) :
  data !! "fen"%string = Some fen ->
  json_truth fen = true ->
  json_board fen = Some position ->
  match data !! "elo"%string with
  | None => True
  | Some value => exists rating, json_int value = Some rating
  end ->
  exists move w',
    move_route data w = (Return (MoveFound move fen), w')
    /\ status (MoveFound move fen) = 200
    /\ match move with
       | None => legal_moves position = []
       | Some text => exists m, In m (legal_moves position) /\ text = uci m
       end.
Proof.
  intros Hfen Htruth Hboard Helo. unfold move_route.
  rewrite Hfen, Htruth, Hboard. cbn [negb].
  assert (Hrating : exists rating,
    match data !! "elo"%string with
    | Some value => json_int value
    | None => Some 1500%Z
    end = Some rating).
  { destruct (data !! "elo"%string) as [value|]; [exact Helo|eauto]. }
  destruct Hrating as (rating & ->).
  destruct (get_move_ok position rating w) as (r & w' & Hrun & _ & Hr).
  exists r, w'. unfold try_except, bind. rewrite Hrun.
  repeat apply conj; [reflexivity|reflexivity|exact Hr].
Qed.


End RequestProperties.

(** ** Runs on the small instances, continued *)

Section MoreRuns.

Import Example.

Lemma run_from_outcome {A W} (p : outcome A * W) (a : A) :
  fst p = Return a -> p = (Return a, snd p).
Proof. destruct p as [o w]. cbn. intros ->. reflexivity. Qed.

Lemma quiet_game :
  play_game 5 quiet_world = (Return tt, snd (play_game 5 quiet_world)).
Proof. apply run_from_outcome. vm_compute. reflexivity. Qed.

Lemma read_only_moves :
  exists board game_history w1,
    self_play 5 (new_board starting_position) [] read_only_world
    = (Return (board, game_history), w1).
Proof.
  assert (Hends :
    match fst (self_play 5 (new_board starting_position) [] read_only_world)
    with Return _ => true | _ => false end = true)
    by (vm_compute; reflexivity).
  destruct (self_play 5 (new_board starting_position) [] read_only_world)
    as [[[board game_history]|e|] w1]; try discriminate.
  exists board, game_history, w1. reflexivity.
Qed.

Lemma quiet_loop :
  loop 1 5 quiet_world = (Return tt, snd (loop 1 5 quiet_world)).
Proof. apply run_from_outcome. vm_compute. reflexivity. Qed.

Lemma minimax_respects_window_witness :
  slt (Fin (-1)) (Fin 1) = true
  /\ exists v w',
       minimax 1 (new_board after_b) (Fin (-1)) (Fin 1) false quiet_world
       = (Return (v, new_board after_b), w')
       /\ (slt (Fin (-1))
             (full_minimax (model quiet_world) 1 (new_board after_b) false)
           = true ->
           slt (full_minimax (model quiet_world) 1 (new_board after_b) false)
             (Fin 1) = true ->
           v = full_minimax (model quiet_world) 1 (new_board after_b) false)
       /\ (sle (full_minimax (model quiet_world) 1 (new_board after_b) false)
             (Fin (-1)) = true ->
           sle v (Fin (-1)) = true)
       /\ (sle (Fin 1)
             (full_minimax (model quiet_world) 1 (new_board after_b) false)
           = true ->
           sle (Fin 1) v = true).
Proof.
  split; [reflexivity|].
  exact (@minimax_respects_window tree_engine material_network
           1 (@new_board tree_engine after_b) (Fin (-1)) (Fin 1) false
           quiet_world eq_refl).
Defined.

Lemma search_root_returns_first_best_witness :
  legal_moves root <> []
  /\ (forall move, In move (legal_moves root) ->
        move_bool move = true
        /\ exists x,
             root_value (model quiet_world) 3 (new_board root) move = Fin x)
  /\ exists before move after w',
       legal_moves root = before ++ move :: after
       /\ search_root (new_board root) (legal_moves root) 3 quiet_world
          = (Return (Some (uci move)), w').
Proof.
  assert (Hne : @legal_moves tree_engine root <> []) by discriminate.
  assert (Hfin : forall move, In move (@legal_moves tree_engine root) ->
    @move_bool tree_engine move = true
    /\ exists x,
         @root_value tree_engine material_network (model quiet_world) 3
           (@new_board tree_engine root) move = Fin x).
  { intros move [<-|[<-|[]]]; (split; [reflexivity|]);
      eexists; vm_compute; reflexivity. }
  split; [exact Hne|]. split; [exact Hfin|].
  destruct (@search_root_returns_first_best tree_engine material_network
              (@new_board tree_engine root) (@legal_moves tree_engine root)
              3 quiet_world Hne Hfin)
    as (before & move & after & w' & Hsplit & Hrun & _).
  exists before, move, after, w'. split; [exact Hsplit|exact Hrun].
Defined.


Lemma board_to_tensor_determines_placement_witness :
  board_to_tensor (new_board root) = board_to_tensor (new_board after_a)
  /\ 0 < 64
  /\ piece_at (current (new_board root)) 0
     = piece_at (current (new_board after_a)) 0.
Proof.
  assert (Heq : @board_to_tensor tree_engine (@new_board tree_engine root)
                = @board_to_tensor tree_engine (@new_board tree_engine after_a))
    by (vm_compute; reflexivity).
  assert (Hsq : 0 < 64) by lia.
  split; [exact Heq|]. split; [exact Hsq|].
  exact (@board_to_tensor_determines_placement tree_engine
           (@new_board tree_engine root) (@new_board tree_engine after_a)
           0 Heq Hsq).
Defined.


Lemma play_game_persists_training_witness :
  play_game 5 quiet_world = (Return tt, snd (play_game 5 quiet_world))
  /\ exists board game_history w1,
       self_play 5 (new_board starting_position) [] quiet_world
       = (Return (board, game_history), w1)
       /\ (model (snd (play_game 5 quiet_world)),
           optimizer (snd (play_game 5 quiet_world)))
          = after_training (reward_for (result board)) game_history
              (model quiet_world, optimizer quiet_world)
       /\ disk (snd (play_game 5 quiet_world))
          = Some (model (snd (play_game 5 quiet_world))).
Proof.
  split; [exact quiet_game|].
  exact (@play_game_persists_training tree_engine material_network
           5 quiet_world (snd (play_game 5 quiet_world)) quiet_game).
Defined.

Lemma play_game_trains_every_pair_witness :
  exists board game_history w1,
    self_play 5 (new_board starting_position) [] read_only_world
    = (Return (board, game_history), w1)
    /\ is_game_over board = true
    /\ exists w2,
         train_on game_history (reward_for (result board)) w1
         = (Return tt, w2)
         /\ events w2
            = rev (List.map
                     (fun pair =>
                        Trained (fst pair) (reward_for (result board)))
                     game_history)
              ++ events w1
         /\ (model w2, optimizer w2)
            = fold_left
                (fun state pair =>
                   optimizer_step (fst state) (snd state) (fst pair)
                     (reward_for (result board)))
                game_history (model read_only_world, optimizer read_only_world)
         /\ play_game 5 read_only_world
            = (run save_model ;; print (GameFinished (result board))) w2.
Proof.
  destruct read_only_moves as (board & game_history & w1 & Hplay).
  exists board, game_history, w1. split; [exact Hplay|].
  destruct (@play_game_trains_every_pair tree_engine material_network
              5 read_only_world w1 board game_history Hplay)
    as (Hover & _ & _ & _ & Htrain).
  split; [exact Hover|exact Htrain].
Defined.

Lemma loop_pauses_once_per_finished_game_witness :
  loop 1 5 quiet_world = (Return tt, snd (loop 1 5 quiet_world))
  /\ exists evs,
       events (snd (loop 1 5 quiet_world)) = evs ++ events quiet_world
       /\ count is_pause evs = count is_finished_line evs
       /\ count is_finished_line evs + count is_error_line evs = 1.
Proof.
  split; [exact quiet_loop|].
  exact (@loop_pauses_once_per_finished_game tree_engine material_network
           1 5 quiet_world (snd (loop 1 5 quiet_world)) quiet_loop).
Defined.

Lemma restart_resumes_saved_model_witness :
  save_model quiet_world = (Return tt, snd (save_model quiet_world))
  /\ exists w2,
       engine_init 7%Z 0 true (snd (save_model quiet_world))
       = (Return ModelLoaded, w2)
       /\ model w2 = model quiet_world
       /\ optimizer w2 = 0
       /\ forall board,
            fst (evaluate board w2) = fst (evaluate board quiet_world).
Proof.
  split; [reflexivity|].
  exact (@restart_resumes_saved_model tree_engine material_network
           quiet_world (snd (save_model quiet_world)) 7%Z 0 eq_refl).
Defined.

Lemma restart_without_model_starts_fresh_witness :
  disk quiet_world = None
  /\ exists w2,
       engine_init 7%Z 0 true quiet_world = (Return NoExistingModel, w2)
       /\ model w2 = 7%Z
       /\ optimizer w2 = 0
       /\ disk w2 = None.
Proof.
  split; [reflexivity|].
  exact (@restart_without_model_starts_fresh tree_engine material_network
           quiet_world 7%Z 0 true eq_refl).
Defined.

End MoreRuns.

Section StrictRuns.

#[local] Existing Instance Strict.strict_engine.
#[local] Existing Instance Example.material_network.
#[local] Existing Instance Strict.strict_requests.

Lemma strict_no_dead_end : no_dead_end.
Proof.
  intros [[white over text placement replies] earlier] Hover.
  unfold is_game_over in Hover. cbn in Hover. unfold Strict.no_reply in Hover.
  cbn in *. destruct replies; [discriminate|]. discriminate.
Qed.

Lemma length_tally (move : nat) : String.length (Strict.tally move) = move.
Proof. induction move as [|k IH]; [reflexivity|]. cbn. rewrite IH. reflexivity. Qed.

Lemma strict_moves_round_trip : moves_round_trip.
Proof.
  intros position move _. split; [reflexivity|].
  cbn. rewrite length_tally. reflexivity.
Qed.

Lemma strict_moves :
  exists final recorded w',
    self_play 5 (new_board Example.root) [] Strict.strict_quiet
    = (Return (final, recorded), w').
Proof.
  assert (Hends :
    match fst (self_play 5 (new_board Example.root) [] Strict.strict_quiet)
    with Return _ => true | _ => false end = true)
    by (vm_compute; reflexivity).
  revert Hends.
  destruct (self_play _ _ _ _) as [[[final recorded]|e|] w'];
    intros Hends; try discriminate.
  exists final, recorded, w'. reflexivity.
Qed.

Lemma high_tier_answer_depends_on_model_only_witness :
  (forall move, In move (legal_moves Example.root) ->
     move_bool move = true
     /\ exists x,
          root_value (model Strict.strict_quiet) 3 (new_board Example.root)
            move = Fin x)
  /\ (1800 <= 2000)%Z
  /\ model Strict.strict_quiet = model Strict.strict_other
  /\ fst (get_move Example.root 2000 Strict.strict_quiet)
     = fst (get_move Example.root 2000 Strict.strict_other)
  /\ rng (snd (get_move Example.root 2000 Strict.strict_quiet))
     = rng Strict.strict_quiet.
Proof.
  assert (Hr : (1800 <= 2000)%Z) by lia.
  assert (Hfin : forall move, In move (legal_moves Example.root) ->
    move_bool move = true
    /\ exists x,
         root_value (model Strict.strict_quiet) 3 (new_board Example.root)
           move = Fin x).
  { intros move [<-|[<-|[]]]; (split; [reflexivity|]);
      eexists; vm_compute; reflexivity. }
  split; [exact Hfin|]. split; [exact Hr|]. split; [reflexivity|].
  exact (high_tier_answer_depends_on_model_only Example.root 2000
           Strict.strict_quiet Strict.strict_other Hfin Hr eq_refl).
Defined.

Lemma self_play_makes_legal_moves_witness :
  moves_round_trip
  /\ legal_line (current (new_board Example.root))
       (stack (new_board Example.root))
  /\ exists final recorded w',
       self_play 5 (new_board Example.root) [] Strict.strict_quiet
       = (Return (final, recorded), w')
       /\ legal_line (current final) (stack final).
Proof.
  split; [exact strict_moves_round_trip|]. split; [exact I|].
  destruct strict_moves as (final & recorded & w' & Hrun).
  exists final, recorded, w'. split; [exact Hrun|].
  exact (self_play_makes_legal_moves 5 (new_board Example.root) []
           Strict.strict_quiet final recorded w'
           strict_moves_round_trip Hrun I).
Defined.

Lemma play_game_raises_only_on_save_witness :
  no_dead_end
  /\ moves_round_trip
  /\ exists e,
       fst (play_game 5 Strict.strict_read_only) = Raise e
       /\ exists board game_history w1 w2,
            self_play 5 (new_board starting_position) []
              Strict.strict_read_only
            = (Return (board, game_history), w1)
            /\ train_on game_history (reward_for (result board)) w1
               = (Return tt, w2)
            /\ fst (save_model w2) = Raise e.
Proof.
  assert (Hrun : fst (play_game 5 Strict.strict_read_only) = Raise OSError)
    by (vm_compute; reflexivity).
  split; [exact strict_no_dead_end|]. split; [exact strict_moves_round_trip|].
  exists OSError. split; [exact Hrun|].
  exact (play_game_raises_only_on_save 5 Strict.strict_read_only OSError
           strict_no_dead_end strict_moves_round_trip Hrun).
Defined.

Lemma move_route_missing_fen_witness :
  match (∅ : gmap string Json) !! "fen"%string with
  | None => True
  | Some fen => json_truth fen = false
  end
  /\ move_route ∅ Strict.strict_quiet = (Return MissingFen, Strict.strict_quiet)
  /\ status MissingFen = 400.
Proof.
  assert (Hfen : match (∅ : gmap string Json) !! "fen"%string with
                 | None => True
                 | Some fen => json_truth fen = false
                 end) by (rewrite lookup_empty; exact I).
  split; [exact Hfen|].
  exact (move_route_missing_fen ∅ Strict.strict_quiet Hfen).
Defined.

Lemma move_route_success_witness :
  Strict.root_request !! "fen"%string = Some (Strict.Text "root")
  /\ json_truth (Strict.Text "root") = true
  /\ json_board (Strict.Text "root") = Some Example.root
  /\ match Strict.root_request !! "elo"%string with
     | None => True
     | Some value => exists rating, json_int value = Some rating
     end
  /\ exists text w',
       move_route Strict.root_request Strict.strict_quiet
       = (Return (MoveFound (Some text) (Strict.Text "root")), w')
       /\ status (MoveFound (Some text) (Strict.Text "root")) = 200
       /\ exists m, In m (legal_moves Example.root) /\ text = uci m.
Proof.
  assert (Hfen : Strict.root_request !! "fen"%string
                 = Some (Strict.Text "root")).
  { unfold Strict.root_request.
    rewrite lookup_insert_ne by discriminate. apply lookup_singleton_eq. }
  assert (Helo : match Strict.root_request !! "elo"%string with
                 | None => True
                 | Some value => exists rating, json_int value = Some rating
                 end).
  { unfold Strict.root_request. rewrite lookup_insert_eq.
    exists 2000%Z. reflexivity. }
  split; [exact Hfen|]. split; [reflexivity|]. split; [reflexivity|].
  split; [exact Helo|].
  destruct (@move_route_success Strict.strict_engine Example.material_network
              Strict.strict_requests Strict.root_request Strict.strict_quiet
              (Strict.Text "root") Example.root Hfen eq_refl eq_refl Helo)
    as ([text|] & w' & Hrun & Hstatus & Hmove).
  - exists text, w'. split; [exact Hrun|]. split; [exact Hstatus|exact Hmove].
  - discriminate Hmove.
Defined.


End StrictRuns.
